(** * The Dukascopy tick aggregator ([src/dukascopy/aggregator.js])

    A shallow embedding of the aggregation and statistics functions of
    [aggregator.js], and the properties its specification states about them.

    Modelling choices.
    - Prices, volumes, spreads and tick counts are JavaScript numbers, that is
      IEEE 754 binary64 values: they are Rocq's primitive [float]s, whose
      operations are the same correctly rounded ones.
    - Time values (milliseconds since the epoch) and minute counts are integers
      in the program; they are [Z] here, which agrees with the program as long
      as they stay below 2^53 in size and inside the range of [Date].  What
      the program computes from them when a division by zero is involved
      (an infinity or a NaN) is modelled, because the control flow depends on
      it: see [Js.num] and [Js.Date].
    - [Array.prototype.sort] sorts the array it is called on, in place, and is
      stable.  The functions that call it therefore return, besides their
      result, the contents of the caller's array after the call. *)

From Stdlib Require Import ZArith List Bool Ascii String Lia Floats.
From Stdlib Require Import Permutation Sorted.
Import ListNotations.
Local Open Scope Z_scope.
Set Warnings "-inexact-float".

(* ================================================================== *)
(** * The JavaScript values and built-ins the program uses             *)
(* ================================================================== *)

Module Js.

(** The outcome of a call: a returned value, or a thrown [Error] and its
    message. *)
Inductive result (A : Type) : Type :=
| Ok (a : A)
| Throw (message : string).
Arguments Ok {A} a.
Arguments Throw {A} message.

Definition bind {A B : Type} (r : result A) (k : A -> result B) : result B :=
  match r with
  | Ok a => k a
  | Throw m => Throw m
  end.

(** ** Integer-valued numbers

    The numbers the bucketing arithmetic goes through: an integer, an
    infinity (a non-zero number divided by zero) or NaN. *)
Inductive num : Type :=
| Fin (z : Z)
| PosInf
| NegInf
| NaN.

(** [Math.floor(a / b)] for an integer divisor [b] (a positive zero when it is
    zero).  [Z.div] rounds towards minus infinity, as [Math.floor] does. *)
Definition floor_div (a : num) (b : Z) : num :=
  match a with
  | Fin x =>
      if b =? 0 then
        (if x =? 0 then NaN else if 0 <? x then PosInf else NegInf)
      else Fin (x / b)
  | PosInf => if b <? 0 then NegInf else PosInf
  | NegInf => if b <? 0 then PosInf else NegInf
  | NaN => NaN
  end.

(** [a * b] for an integer [b]: an infinity times zero is NaN. *)
Definition mul (a : num) (b : Z) : num :=
  match a with
  | Fin x => Fin (x * b)
  | PosInf => if b =? 0 then NaN else if 0 <? b then PosInf else NegInf
  | NegInf => if b =? 0 then NaN else if 0 <? b then NegInf else PosInf
  | NaN => NaN
  end.

(** [a - b]. *)
Definition sub (a b : num) : num :=
  match a, b with
  | Fin x, Fin y => Fin (x - y)
  | NaN, _ | _, NaN => NaN
  | PosInf, PosInf | NegInf, NegInf => NaN
  | PosInf, _ | _, NegInf => PosInf
  | NegInf, _ | _, PosInf => NegInf
  end.

(** [a < b], [a <= b], [a === b] and [a !== b]: every comparison with NaN is
    false, so NaN is strictly different from itself. *)
Definition lt (a b : num) : bool :=
  match a, b with
  | NaN, _ | _, NaN => false
  | Fin x, Fin y => x <? y
  | NegInf, NegInf => false
  | NegInf, _ => true
  | _, NegInf => false
  | PosInf, _ => false
  | _, PosInf => true
  end.

Definition strict_eq (a b : num) : bool :=
  match a, b with
  | Fin x, Fin y => x =? y
  | PosInf, PosInf | NegInf, NegInf => true
  | _, _ => false
  end.

Definition le (a b : num) : bool := lt a b || strict_eq a b.

Definition strict_neq (a b : num) : bool := negb (strict_eq a b).

(** ** Dates

    A [Date] holds a time value in milliseconds, or is an Invalid Date, whose
    time value is NaN. *)
Inductive Date : Type :=
| Instant (ms : Z)
| Invalid.

(** [new Date(v)] for a number [v]: a time value that is not finite gives an
    Invalid Date. *)
Definition newDate (v : num) : Date :=
  match v with
  | Fin z => Instant z
  | _ => Invalid
  end.

(** [d.getTime()], also what [d] converts to in arithmetic. *)
Definition getTime (d : Date) : num :=
  match d with
  | Instant z => Fin z
  | Invalid => NaN
  end.

(** ** Floating-point numbers *)

(** Truthiness of a number: [0], [-0] and [NaN] are falsy. *)
Definition truthy (x : float) : bool := negb (is_zero x || is_nan x).

(** Truthiness of a property that may be absent ([undefined] is falsy). *)
Definition truthy_field (x : option float) : bool :=
  match x with
  | Some v => truthy v
  | None => false
  end.

(** [x || d] for a number [x]. *)
Definition or_else (x d : float) : float := if truthy x then x else d.

(** The number a property that may be absent converts to ([undefined] gives
    NaN). *)
Definition to_number (x : option float) : float :=
  match x with
  | Some v => v
  | None => nan
  end.

(** [Math.max(a, b)]: NaN when an argument is NaN, and [+0] is larger than
    [-0]. *)
Definition Math_max (a b : float) : float :=
  if is_nan a || is_nan b then nan
  else if (a <? b)%float then b
  else if (b <? a)%float then a
  else if get_sign a then b else a.

(** [Math.min(a, b)]: NaN when an argument is NaN, and [-0] is smaller than
    [+0]. *)
Definition Math_min (a b : float) : float :=
  if is_nan a || is_nan b then nan
  else if (a <? b)%float then a
  else if (b <? a)%float then b
  else if get_sign a then a else b.

(** [Math.max(...values)] and [Math.min(...values)]. *)
Definition Math_max_of (values : list float) : float :=
  fold_left Math_max values neg_infinity.
Definition Math_min_of (values : list float) : float :=
  fold_left Math_min values infinity.

(** [Math.pow(x, k)] for the small integer exponents the program uses, as a
    product of [k] factors. *)
Fixpoint Math_pow (x : float) (k : nat) : float :=
  match k with
  | O => one
  | S O => x
  | S k' => (x * Math_pow x k')%float
  end.

(** The number an array length or another small natural number is. *)
Definition of_nat (n : nat) : float := of_uint63 (Uint63.of_Z (Z.of_nat n)).

(** [values.reduce((a, b) => a + b, 0)]. *)
Definition sum (values : list float) : float :=
  fold_left PrimFloat.add values zero.

(** ** [Array.prototype.sort]

    The sort is stable; [compare x y] is the number the comparison function
    returns, of which only the sign is used (NaN counts as zero).  An element
    is placed behind the elements that compare strictly below it. *)
Section Sort.
Context {A : Type} (compare : A -> A -> num).

Fixpoint insert (x : A) (sorted : list A) : list A :=
  match sorted with
  | [] => [x]
  | y :: rest =>
      if lt (Fin 0) (compare x y) then y :: insert x rest else x :: sorted
  end.

Fixpoint sort (array : list A) : list A :=
  match array with
  | [] => []
  | x :: rest => insert x (sort rest)
  end.
End Sort.

End Js.

Import Js.

(* ================================================================== *)
(** * The records                                                      *)
(* ================================================================== *)

(** A tick: the instant its [timestamp] denotes (what [new Date] reads from
    it), bid and ask prices, and the two volumes, which may be absent. *)
Module Tick.
Record t : Type := mk {
  timestamp : Z;
  bid : float;
  ask : float;
  bidVolume : option float;
  askVolume : option float
}.
End Tick.

(** A bar.  [timestamp] is a [Date] object; [spread] is present on the bars
    built from ticks and absent on resampled bars. *)
Module Bar.
Record t : Type := mk {
  timestamp : Date;
  open : float;
  high : float;
  low : float;
  close : float;
  volume : float;
  tickCount : float;
  spread : option float
}.

(** [b.volume = v]. *)
Definition set_volume (b : t) (v : float) : t :=
  mk (timestamp b) (open b) (high b) (low b) (close b) v (tickCount b)
     (spread b).
End Bar.

(* ================================================================== *)
(** * The timeframe token and the bucket start                         *)
(* ================================================================== *)

Definition is_digit (c : ascii) : bool :=
  let n := N_of_ascii c in ((48 <=? n) && (n <=? 57))%N.

Definition digit_value (c : ascii) : Z := Z.of_N (N_of_ascii c) - 48.

(** The class [[mhd]]. *)
Definition is_unit (c : ascii) : bool :=
  (Ascii.eqb c "m" || Ascii.eqb c "h" || Ascii.eqb c "d")%char.

(** The longest prefix of digits, and what follows it. *)
Fixpoint span_digits (s : string) : string * string :=
  match s with
  | String c rest =>
      if is_digit c then
        let (digits, tail) := span_digits rest in (String c digits, tail)
      else (EmptyString, s)
  | EmptyString => (EmptyString, EmptyString)
  end.

(** [timeframe.match(/^(\d+)([mhd])$/)]: the two groups, or [None] for
    [null].  The digits are matched greedily; giving some of them back never
    helps, since a digit is not a unit letter. *)
Definition match_timeframe (timeframe : string) : option (string * ascii) :=
  match span_digits timeframe with
  | (EmptyString, _) => None
  | (digits, String unit EmptyString) =>
      if is_unit unit then Some (digits, unit) else None
  | (_, _) => None
  end.

(** [parseInt(value)] on a string of decimal digits. *)
Definition parseInt_from (acc : Z) (value : string) : Z :=
  fold_left (fun n c => 10 * n + digit_value c) (list_ascii_of_string value)
    acc.
Definition parseInt (value : string) : Z := parseInt_from 0 value.

Definition parseTimeframe (timeframe : string) : result Z :=
  match match_timeframe timeframe with
  | None => Throw ("Invalid timeframe: " ++ timeframe)
  | Some (value, unit) =>
      let num := parseInt value in
      if Ascii.eqb unit "m" then Ok num
      else if Ascii.eqb unit "h" then Ok (num * 60)
      else if Ascii.eqb unit "d" then Ok (num * 60 * 24)
      else Throw ("Invalid timeframe unit: " ++ String unit EmptyString)
  end.

Definition getBarTime (tickTime : Date) (intervalMinutes : Z) : Date :=
  let ms := getTime tickTime in
  let intervalMs := intervalMinutes * 60 * 1000 in
  let barMs := Js.mul (floor_div ms intervalMs) intervalMs in
  newDate barMs.

(* ================================================================== *)
(** * Ticks to bars                                                    *)
(* ================================================================== *)

(** The state of the loops: the bars pushed so far and [currentBar]
    ([None] for [null]). *)
Definition loop_state : Type := list Bar.t * option Bar.t.

(** [(a, b) => new Date(a.timestamp) - new Date(b.timestamp)] on ticks. *)
Definition compare_ticks (a b : Tick.t) : num :=
  Js.sub (getTime (newDate (Fin (Tick.timestamp a))))
         (getTime (newDate (Fin (Tick.timestamp b)))).

Definition midPrice (tick : Tick.t) : float :=
  ((Tick.bid tick + Tick.ask tick) / 2)%float.

(** The bar a tick opens. *)
Definition new_bar (barTime : Date) (tick : Tick.t) : Bar.t :=
  Bar.mk barTime (midPrice tick) (midPrice tick) (midPrice tick)
         (midPrice tick) 0 1 (Some (Tick.ask tick - Tick.bid tick)%float).

(** The update of the open bar by a tick of its bucket. *)
Definition update_bar (currentBar : Bar.t) (tick : Tick.t) : Bar.t :=
  let high := Math_max (Bar.high currentBar) (midPrice tick) in
  let low := Math_min (Bar.low currentBar) (midPrice tick) in
  let close := midPrice tick in
  let tickCount := (Bar.tickCount currentBar + 1)%float in
  let spread :=
    ((to_number (Bar.spread currentBar) * (tickCount - 1)
      + (Tick.ask tick - Tick.bid tick)) / tickCount)%float in
  Bar.mk (Bar.timestamp currentBar) (Bar.open currentBar) high low close
         (Bar.volume currentBar) tickCount (Some spread).

(** The last statement of the loop body: the volume of the tick, when both
    volume fields are truthy. *)
Definition add_volume (currentBar : Bar.t) (tick : Tick.t) : Bar.t :=
  if truthy_field (Tick.bidVolume tick) && truthy_field (Tick.askVolume tick)
  then
    Bar.set_volume currentBar
      (Bar.volume currentBar
       + (to_number (Tick.bidVolume tick) + to_number (Tick.askVolume tick))
         / 2)%float
  else currentBar.

(** One iteration of [for (const tick of ticks)]. *)
Definition tick_step (intervalMinutes : Z) (st : loop_state) (tick : Tick.t)
  : loop_state :=
  let (bars, currentBar) := st in
  let tickTime := newDate (Fin (Tick.timestamp tick)) in
  let barTime := getBarTime tickTime intervalMinutes in
  match currentBar with
  | Some cb =>
      if strict_neq (getTime (Bar.timestamp cb)) (getTime barTime)
      then (bars ++ [cb], Some (add_volume (new_bar barTime tick) tick))
      else (bars, Some (add_volume (update_bar cb tick) tick))
  | None => (bars, Some (add_volume (new_bar barTime tick) tick))
  end.

(** The push of the last bar, after the loop. *)
Definition flush (st : loop_state) : list Bar.t :=
  match snd st with
  | Some cb => fst st ++ [cb]
  | None => fst st
  end.

(** [aggregateTicksToBars(ticks, timeframe)]: the caller's array after the
    call, and the outcome. *)
Definition aggregateTicksToBars (ticks : list Tick.t) (timeframe : string)
  : list Tick.t * result (list Bar.t) :=
  match ticks with
  | [] => (ticks, Ok [])
  | _ :: _ =>
      match parseTimeframe timeframe with
      | Throw m => (ticks, Throw m)
      | Ok intervalMinutes =>
          let ticks := sort compare_ticks ticks in
          (ticks,
           Ok (flush (fold_left (tick_step intervalMinutes) ticks ([], None))))
      end
  end.

(* ================================================================== *)
(** * Bars to coarser bars                                             *)
(* ================================================================== *)

(** [(a, b) => new Date(a.timestamp) - new Date(b.timestamp)] on bars. *)
Definition compare_bars (a b : Bar.t) : num :=
  Js.sub (getTime (newDate (getTime (Bar.timestamp a))))
         (getTime (newDate (getTime (Bar.timestamp b)))).

(** The bar a source bar opens ([spread] is not copied). *)
Definition new_resampled (barTime : Date) (bar : Bar.t) : Bar.t :=
  Bar.mk barTime (Bar.open bar) (Bar.high bar) (Bar.low bar) (Bar.close bar)
         (or_else (Bar.volume bar) 0) (or_else (Bar.tickCount bar) 1) None.

(** The update of the open bar by a source bar of its bucket. *)
Definition update_resampled (currentBar bar : Bar.t) : Bar.t :=
  Bar.mk (Bar.timestamp currentBar) (Bar.open currentBar)
         (Math_max (Bar.high currentBar) (Bar.high bar))
         (Math_min (Bar.low currentBar) (Bar.low bar))
         (Bar.close bar)
         (Bar.volume currentBar + or_else (Bar.volume bar) 0)%float
         (Bar.tickCount currentBar + or_else (Bar.tickCount bar) 1)%float
         (Bar.spread currentBar).

(** One iteration of [for (const bar of bars)]. *)
Definition bar_step (targetMinutes : Z) (st : loop_state) (bar : Bar.t)
  : loop_state :=
  let (resampledBars, currentBar) := st in
  let barTime :=
    getBarTime (newDate (getTime (Bar.timestamp bar))) targetMinutes in
  match currentBar with
  | Some cb =>
      if strict_neq (getTime (Bar.timestamp cb)) (getTime barTime)
      then (resampledBars ++ [cb], Some (new_resampled barTime bar))
      else (resampledBars, Some (update_resampled cb bar))
  | None => (resampledBars, Some (new_resampled barTime bar))
  end.

(** [resampleBars(bars, targetTimeframe)]: the caller's array after the call,
    and the outcome.  The array is sorted before the timeframe is parsed. *)
Definition resampleBars (bars : list Bar.t) (targetTimeframe : string)
  : list Bar.t * result (list Bar.t) :=
  match bars with
  | [] => (bars, Ok [])
  | _ :: _ =>
      let bars := sort compare_bars bars in
      match parseTimeframe targetTimeframe with
      | Throw m => (bars, Throw m)
      | Ok targetMinutes =>
          (bars,
           Ok (flush (fold_left (bar_step targetMinutes) bars ([], None))))
      end
  end.

(* ================================================================== *)
(** * Statistics                                                       *)
(* ================================================================== *)

(** [calculateStdDev(values)]. *)
Definition calculateStdDev (values : list float) : float :=
  let mean := (Js.sum values / of_nat (List.length values))%float in
  let squaredDiffs := map (fun x => Math_pow (x - mean)%float 2) values in
  let variance := (Js.sum squaredDiffs / of_nat (List.length values))%float in
  sqrt variance.

(** [calculateSkewness(values)].  The body has no [throw]: the call returns
    what the arithmetic gives. *)
Definition calculateSkewness (values : list float) : result float :=
  let n := of_nat (List.length values) in
  let mean := (Js.sum values / n)%float in
  let std := calculateStdDev values in
  let cubedDiffs := map (fun x => Math_pow ((x - mean) / std)%float 3) values in
  Ok ((n / ((n - 1) * (n - 2))) * Js.sum cubedDiffs)%float.

(** [calculateKurtosis(values)].  No [throw] either. *)
Definition calculateKurtosis (values : list float) : result float :=
  let n := of_nat (List.length values) in
  let mean := (Js.sum values / n)%float in
  let std := calculateStdDev values in
  let fourthDiffs :=
    map (fun x => Math_pow ((x - mean) / std)%float 4) values in
  let rawKurtosis :=
    ((n * (n + 1) / ((n - 1) * (n - 2) * (n - 3))) * Js.sum fourthDiffs
     - (3 * Math_pow (n - 1) 2 / ((n - 2) * (n - 3))))%float in
  Ok (rawKurtosis - 3)%float.

(** The [returns] array of [calculateTickStatistics]: the relative change of
    each mid price with respect to the one before it. *)
Fixpoint returns_of (midPrices : list float) : list float :=
  match midPrices with
  | previous :: (current :: _) as rest =>
      ((current - previous) / previous)%float :: returns_of rest
  | _ => []
  end.

Record Summary : Type := mkSummary {
  s_min : float;
  s_max : float;
  s_mean : float;
  s_std : float
}.

Record Moments : Type := mkMoments {
  r_mean : float;
  r_std : float;
  r_skew : float;
  r_kurtosis : float
}.

Record Statistics : Type := mkStatistics {
  st_tickCount : nat;
  st_from : Date;
  st_to : Date;
  st_spread : Summary;
  st_price : Summary;
  st_returns : Moments
}.

Definition summary_of (values : list float) : Summary :=
  mkSummary (Math_min_of values) (Math_max_of values)
            (Js.sum values / of_nat (List.length values))%float
            (calculateStdDev values).

(** [calculateTickStatistics(ticks)]: [None] is the [null] returned for no
    ticks. *)
Definition calculateTickStatistics (ticks : list Tick.t)
  : result (option Statistics) :=
  match ticks with
  | [] => Ok None
  | first :: _ =>
      let spreads := map (fun t => (Tick.ask t - Tick.bid t)%float) ticks in
      let midPrices := map midPrice ticks in
      let returns := returns_of midPrices in
      bind (calculateSkewness returns) (fun skew =>
      bind (calculateKurtosis returns) (fun kurtosis =>
      Ok (Some (mkStatistics
        (List.length ticks)
        (newDate (Fin (Tick.timestamp first)))
        (newDate (Fin (Tick.timestamp (last ticks first))))
        (summary_of spreads)
        (summary_of midPrices)
        (mkMoments (Js.sum returns / of_nat (List.length returns))%float
                   (calculateStdDev returns) skew kurtosis)))))
  end.

(* ================================================================== *)
(** * The notions the properties are stated with                       *)
(* ================================================================== *)

(** ** Timeframe tokens *)

Definition all_digits (s : string) : Prop :=
  Forall (fun c => is_digit c = true) (list_ascii_of_string s).


(** The count a string of digits denotes, digit by digit from the left with
    its power of ten. *)
Fixpoint decimal_value (digits : string) : Z :=
  match digits with
  | EmptyString => 0
  | String c rest =>
      digit_value c * 10 ^ Z.of_nat (String.length rest) + decimal_value rest
  end.

(** Minutes in a unit. *)
Definition minutes_per (unit : ascii) : Z :=
  if Ascii.eqb unit "m" then 1 else if Ascii.eqb unit "h" then 60 else 1440.

(** ** Buckets and orders on records *)

(** The bucket start of a tick. *)
Definition bucket_of (intervalMinutes : Z) (tick : Tick.t) : Date :=
  getBarTime (newDate (Fin (Tick.timestamp tick))) intervalMinutes.

(** [floor(t / interval_ms) * interval_ms] on integers. *)
Definition bucket_ms (intervalMinutes t : Z) : Z :=
  t / (intervalMinutes * 60 * 1000) * (intervalMinutes * 60 * 1000).


Definition valid_date (d : Date) : Prop := exists z, d = Instant z.

(** The time value of a valid date ([0] stands for the NaN of an Invalid
    Date; the statements that use it are about valid dates). *)
Definition instant_of (d : Date) : Z :=
  match d with
  | Instant z => z
  | Invalid => 0
  end.

(** [x] is not placed behind [y] by the sort. *)
Definition not_after {A : Type} (compare : A -> A -> num) (x y : A) : Prop :=
  Js.lt (Fin 0) (compare x y) = false.

(** Ascending order of an integer key. *)
Definition key_le {A : Type} (key : A -> Z) (x y : A) : Prop :=
  key x <= key y.

(** The shape the two loops share: [key] is the bucket start of a record,
    [opens] the bar a record opens and [merges] the update of the open bar. *)
Section GroupLoop.
Context {A : Type} (key : A -> Date) (opens : Date -> A -> Bar.t)
        (merges : Bar.t -> A -> Bar.t).

Definition group_step (st : loop_state) (x : A) : loop_state :=
  let (bars, currentBar) := st in
  match currentBar with
  | Some cb =>
      if strict_neq (getTime (Bar.timestamp cb)) (getTime (key x))
      then (bars ++ [cb], Some (opens (key x) x))
      else (bars, Some (merges cb x))
  | None => (bars, Some (opens (key x) x))
  end.
End GroupLoop.

(** ** The order of the floating-point numbers

    A key for each number, in three components compared lexicographically:
    the numbers that are not NaN ascend with their keys, and [-0] comes
    before [+0]. *)
Definition order_key (x : spec_float) : Z * (Z * Z) :=
  match x with
  | S754_infinity true => (-2, (0, 0))
  | S754_finite true m e => (-1, (- e, - Z.pos m))
  | S754_zero true => (0, (0, 0))
  | S754_zero false => (0, (1, 0))
  | S754_finite false m e => (1, (e, Z.pos m))
  | S754_infinity false => (2, (0, 0))
  | S754_nan => (3, (0, 0))
  end.

Definition key_lt (p q : Z * (Z * Z)) : Prop :=
  fst p < fst q
  \/ (fst p = fst q
      /\ (fst (snd p) < fst (snd q)
          \/ (fst (snd p) = fst (snd q) /\ snd (snd p) < snd (snd q)))).

(** [a] comes strictly before [b]. *)
Definition before (a b : float) : Prop :=
  key_lt (order_key (Prim2SF a)) (order_key (Prim2SF b)).

Definition not_nan (a : float) : Prop := is_nan a = false.

Definition both_zero (x y : spec_float) : Prop :=
  (exists s, x = S754_zero s) /\ (exists s, y = S754_zero s).

(** ** Bars *)

(** [low <= Math.min(open, close) && high >= Math.max(open, close)]. *)
Definition bar_invariant (b : Bar.t) : Prop :=
  (Bar.low b <=? Math_min (Bar.open b) (Bar.close b))%float = true
  /\ (Math_max (Bar.open b) (Bar.close b) <=? Bar.high b)%float = true.

(** The same, comparison by comparison. *)
Definition ordered (b : Bar.t) : Prop :=
  (Bar.low b <=? Bar.open b)%float = true
  /\ (Bar.low b <=? Bar.close b)%float = true
  /\ (Bar.open b <=? Bar.high b)%float = true
  /\ (Bar.close b <=? Bar.high b)%float = true.

(** The invariant on the bars pushed so far and on the open bar. *)
Definition state_invariant (st : loop_state) : Prop :=
  Forall bar_invariant (fst st)
  /\ forall cb, snd st = Some cb -> bar_invariant cb.

(** The bucket start and the four prices of a bar. *)
Definition ohlc (b : Bar.t) : Date * float * float * float * float :=
  (Bar.timestamp b, Bar.open b, Bar.high b, Bar.low b, Bar.close b).

(** A loop state, read through [ohlc]. *)
Definition view (st : loop_state)
  : list (Date * float * float * float * float)
    * option (Date * float * float * float * float) :=
  (map ohlc (fst st), option_map ohlc (snd st)).

(** ** Spread and volume, as the specification words them *)

Definition tick_spread (tick : Tick.t) : float :=
  (Tick.ask tick - Tick.bid tick)%float.

(** The running mean: [n] is the tick count after the increment. *)
Definition running_mean (spread_old n tickSpread : float) : float :=
  ((spread_old * (n - 1) + tickSpread) / n)%float.

(** What a tick that carries both volumes adds to the volume of its bar. *)
Definition mean_volume (bidVolume askVolume : float) : float :=
  ((bidVolume + askVolume) / 2)%float.

(** ** The bar of a bucket *)

(** The records of one bucket, of start [z], and the bar they build, taken
    in order: the first opens it and the others update it ([None] for no
    record). *)
Section GroupBar.
Context {A : Type} (key : A -> Date) (opens : Date -> A -> Bar.t)
        (merges : Bar.t -> A -> Bar.t) (keyz : A -> Z).



End GroupBar.




(** ** The ticks the fetcher hands over ([tick_fetcher.js]) *)

(** [x || null] on a volume field.  [None] stands for [null] as it does for
    an absent field: both are falsy, and the aggregator reads a volume only
    after it has found it truthy. *)
Definition or_null (x : option float) : option float :=
  if truthy_field x then x else None.

(** One element of [processTickData(data, 'tick')]: the timestamp becomes a
    [Date] of the same instant, bid and ask are copied, and each volume goes
    through [|| null]. *)
Definition processTick (tick : Tick.t) : Tick.t :=
  Tick.mk (Tick.timestamp tick) (Tick.bid tick) (Tick.ask tick)
          (or_null (Tick.bidVolume tick)) (or_null (Tick.askVolume tick)).

(** [processTickData(data, timeframe)] when [timeframe === 'tick']. *)
Definition processTickData_tick (data : list Tick.t) : list Tick.t :=
  map processTick data.

(* ================================================================== *)
(** * The timeframe token                                              *)
(* ================================================================== *)


Lemma is_unit_cases c :
  is_unit c = true <-> (c = "m" \/ c = "h" \/ c = "d")%char.
Proof.
  unfold is_unit. rewrite !orb_true_iff, !Ascii.eqb_eq. tauto.
Qed.


Lemma span_digits_spec s :
  let (digits, tail) := span_digits s in
  s = (digits ++ tail)%string /\ all_digits digits.
Proof.
  unfold all_digits. induction s as [| c s IH]; simpl.
  - split; [reflexivity | constructor].
  - destruct (is_digit c) eqn:Hc.
    + destruct (span_digits s) as [digits tail]. destruct IH as [-> IH].
      split; [reflexivity | simpl; constructor; assumption].
    + split; [reflexivity | constructor].
Qed.

Lemma match_timeframe_Some token digits unit :
  match_timeframe token = Some (digits, unit) ->
  token = (digits ++ String unit EmptyString)%string
  /\ digits <> EmptyString /\ all_digits digits /\ is_unit unit = true.
Proof.
  unfold match_timeframe. pose proof (span_digits_spec token) as Hs.
  destruct (span_digits token) as [ds tail]. destruct Hs as [-> Hd].
  destruct ds as [| d ds]; [discriminate |].
  destruct tail as [| u [| ? ?]]; try discriminate.
  destruct (is_unit u) eqn:Hu; [| discriminate].
  intros [= <- <-]. repeat split; auto. discriminate.
Qed.



Lemma parseInt_from_decimal digits : forall acc,
  parseInt_from acc digits
  = acc * 10 ^ Z.of_nat (String.length digits) + decimal_value digits.
Proof.
  unfold parseInt_from.
  induction digits as [| c rest IH]; intros acc.
  - simpl. lia.
  - cbn [list_ascii_of_string fold_left]. rewrite IH.
    cbn [String.length decimal_value].
    rewrite Nat2Z.inj_succ, Z.pow_succ_r by lia. ring.
Qed.

Lemma parseInt_decimal digits : parseInt digits = decimal_value digits.
Proof. unfold parseInt. rewrite parseInt_from_decimal. lia. Qed.


Lemma is_digit_value c : is_digit c = true -> 0 <= digit_value c <= 9.
Proof.
  unfold is_digit, digit_value. intros H.
  apply andb_true_iff in H as [H1 H2].
  apply N.leb_le in H1. apply N.leb_le in H2. lia.
Qed.

Lemma decimal_value_nonneg digits :
  all_digits digits -> 0 <= decimal_value digits.
Proof.
  unfold all_digits.
  induction digits as [| c rest IH]; simpl; intros H; [lia |].
  inversion H as [| ? ? H1 H2]; subst.
  apply is_digit_value in H1. specialize (IH H2).
  assert (0 <= 10 ^ Z.of_nat (String.length rest)) by (apply Z.pow_nonneg; lia).
  nia.
Qed.

Lemma parseTimeframe_Ok token minutes :
  parseTimeframe token = Ok minutes ->
  exists digits unit,
    token = (digits ++ String unit EmptyString)%string
    /\ digits <> EmptyString /\ all_digits digits /\ is_unit unit = true
    /\ minutes = decimal_value digits * minutes_per unit.
Proof.
  intros H. unfold parseTimeframe in H.
  destruct (match_timeframe token) as [[digits unit] |] eqn:Hm;
    [| discriminate].
  apply match_timeframe_Some in Hm as (-> & Hne & Hd & Hu).
  exists digits, unit. repeat split; auto.
  rewrite parseInt_decimal in H. apply is_unit_cases in Hu. unfold minutes_per.
  destruct Hu as [-> | [-> | ->]]; simpl in *; injection H as <-; lia.
Qed.

Lemma parseTimeframe_nonneg token minutes :
  parseTimeframe token = Ok minutes -> 0 <= minutes.
Proof.
  intros H.
  apply parseTimeframe_Ok in H as (digits & unit & _ & _ & Hd & Hu & ->).
  apply decimal_value_nonneg in Hd. apply is_unit_cases in Hu.
  unfold minutes_per. destruct Hu as [-> | [-> | ->]]; simpl; lia.
Qed.



(* ================================================================== *)
(** * The bucket start                                                 *)
(* ================================================================== *)

Lemma getBarTime_Instant t intervalMinutes :
  intervalMinutes <> 0 ->
  getBarTime (Instant t) intervalMinutes
  = Instant (t / (intervalMinutes * 60 * 1000) * (intervalMinutes * 60 * 1000)).
Proof.
  intros Hi. unfold getBarTime. simpl.
  destruct (Z.eqb_spec (intervalMinutes * 60 * 1000) 0) as [E | _]; [lia |].
  reflexivity.
Qed.

(** With an interval of zero minutes every bucket start is an Invalid Date:
    the quotient is an infinity or NaN, and its product with zero is NaN. *)
Lemma getBarTime_zero d : getBarTime d 0 = Invalid.
Proof.
  destruct d as [t |]; [| reflexivity]. unfold getBarTime. simpl.
  destruct (Z.eqb_spec t 0); [reflexivity |]. now destruct (0 <? t).
Qed.

Lemma newDate_getTime d : newDate (getTime d) = d.
Proof. now destruct d. Qed.






(** C10.  On the empty sequence both functions return the empty sequence
    whatever the timeframe token is, also one that [parseTimeframe] rejects:
    the length is tested before the token is parsed. *)
Theorem empty_input_before_parse (timeframe : string) :
  aggregateTicksToBars [] timeframe = ([], Ok [])
  /\ resampleBars [] timeframe = ([], Ok [])
  /\ parseTimeframe "tick" = Throw "Invalid timeframe: tick"
  /\ snd (aggregateTicksToBars [] "tick") = Ok []
  /\ snd (resampleBars [] "tick") = Ok [].
Proof. repeat split; reflexivity. Qed.

(* ================================================================== *)
(** * The sort                                                         *)
(* ================================================================== *)

Section SortFacts.
Context {A : Type} (compare : A -> A -> num).

Lemma insert_perm x l : Permutation (x :: l) (insert compare x l).
Proof.
  induction l as [| y l IH]; cbn [insert]; [reflexivity |].
  destruct (Js.lt (Fin 0) (compare x y)); [| reflexivity].
  rewrite perm_swap. now constructor.
Qed.

Lemma sort_perm l : Permutation l (sort compare l).
Proof.
  induction l as [| x l IH]; cbn [sort]; [constructor |].
  rewrite <- insert_perm. now constructor.
Qed.

(** An array in which no element is to be placed behind a later one is left
    as it is. *)
Lemma sort_sorted_id l :
  StronglySorted (not_after compare) l -> sort compare l = l.
Proof.
  induction 1 as [| x l Hs IH Hx]; cbn [sort]; [reflexivity |].
  rewrite IH. destruct l as [| y l]; [reflexivity |]. cbn [insert].
  inversion Hx as [| ? ? Hxy _]; subst. unfold not_after in Hxy.
  now rewrite Hxy.
Qed.

(** When the comparison function is a difference of integer keys, the result
    is in ascending order of the keys. *)
Context (key : A -> Z).

Lemma insert_sorted x l :
  (forall y, In y l -> compare x y = Fin (key x - key y)) ->
  StronglySorted (key_le key) l ->
  StronglySorted (key_le key) (insert compare x l).
Proof.
  intros Hc Hs. induction Hs as [| y l Hs IH Hy]; cbn [insert].
  - repeat constructor.
  - rewrite (Hc y) by now left. cbn [Js.lt].
    destruct (Z.ltb_spec 0 (key x - key y)) as [Hlt | Hge].
    + constructor.
      * apply IH. intros z Hz. apply Hc. now right.
      * eapply Permutation_Forall; [apply insert_perm |].
        constructor; [unfold key_le; lia | assumption].
    + constructor; [now constructor |].
      constructor; [unfold key_le; lia |].
      eapply Forall_impl; [| exact Hy]. unfold key_le. intros; lia.
Qed.

Lemma sort_sorted l :
  (forall x y, In x l -> In y l -> compare x y = Fin (key x - key y)) ->
  StronglySorted (key_le key) (sort compare l).
Proof.
  induction l as [| x l IH]; cbn [sort]; intros Hc; [constructor |].
  apply insert_sorted.
  - intros y Hy. apply Hc; [now left | right].
    eapply Permutation_in; [symmetry; apply sort_perm | exact Hy].
  - apply IH. intros a b Ha Hb. apply Hc; now right.
Qed.

Lemma key_sorted_not_after l :
  (forall x y, In x l -> In y l -> compare x y = Fin (key x - key y)) ->
  StronglySorted (key_le key) l -> StronglySorted (not_after compare) l.
Proof.
  intros Hc Hs. induction Hs as [| x l Hs IH Hx]; constructor.
  - apply IH. intros a b Ha Hb. apply Hc; now right.
  - rewrite Forall_forall in *. intros y Hy. unfold not_after.
    rewrite Hc; [| now left | now right]. cbn [Js.lt].
    specialize (Hx y Hy). unfold key_le in Hx. apply Z.ltb_ge. lia.
Qed.
End SortFacts.

Lemma compare_ticks_key a b :
  compare_ticks a b = Fin (Tick.timestamp a - Tick.timestamp b).
Proof. reflexivity. Qed.

Lemma compare_bars_key a b :
  valid_date (Bar.timestamp a) -> valid_date (Bar.timestamp b) ->
  compare_bars a b
  = Fin (instant_of (Bar.timestamp a) - instant_of (Bar.timestamp b)).
Proof. intros [x Hx] [y Hy]. unfold compare_bars. now rewrite Hx, Hy. Qed.

(** Bars whose bucket starts are strictly ascending instants are in the order
    the sort leaves alone. *)
Lemma instants_not_after bars : forall zs,
  map Bar.timestamp bars = map Instant zs -> StronglySorted Z.lt zs ->
  StronglySorted (not_after compare_bars) bars.
Proof.
  induction bars as [| b bars IH]; intros zs Hm Hs; [constructor |].
  destruct zs as [| z zs]; [discriminate |]. cbn [map] in Hm.
  injection Hm as Hb Hm. inversion Hs as [| ? ? Hs' Hz]; subst.
  constructor; [now apply (IH zs) |].
  clear IH Hs Hs'. revert zs Hm Hz.
  induction bars as [| b' bars IH]; intros zs Hm Hz; constructor.
  - destruct zs as [| z' zs]; [discriminate |]. cbn [map] in Hm.
    injection Hm as Hb' Hm. inversion Hz; subst.
    unfold not_after, compare_bars. rewrite Hb, Hb'. cbn.
    apply Z.ltb_ge. lia.
  - destruct zs as [| z' zs]; [discriminate |]. cbn [map] in Hm.
    injection Hm as Hb' Hm. inversion Hz; subst. now apply (IH zs).
Qed.

(** C4, as amended.  Both functions sort the caller's array itself: no copy
    is made.  After the call the array holds the elements it held before, in
    ascending order of their timestamps (the stable sort of the original
    contents) whenever the sort is reached, that is for a non-empty array
    and, in [aggregateTicksToBars], a timeframe token that parses; it is
    the array as it was when it was already in ascending order, when it is
    empty, or when [aggregateTicksToBars] rejects the token.
    [resampleBars] sorts before it parses the token. *)
Theorem sort_in_place
  (ticks : list Tick.t) (bars : list Bar.t) (timeframe : string) :
  let ticks_after := fst (aggregateTicksToBars ticks timeframe) in
  let bars_after := fst (resampleBars bars timeframe) in
  Permutation ticks ticks_after
  /\ Permutation bars bars_after
  /\ (forall intervalMinutes,
        parseTimeframe timeframe = Ok intervalMinutes ->
        ticks_after = sort compare_ticks ticks
        /\ StronglySorted (key_le Tick.timestamp) ticks_after)
  /\ (forall message,
        parseTimeframe timeframe = Throw message -> ticks_after = ticks)
  /\ bars_after = sort compare_bars bars
  /\ (Forall (fun b => valid_date (Bar.timestamp b)) bars ->
      StronglySorted (key_le (fun b => instant_of (Bar.timestamp b)))
        bars_after)
  /\ (StronglySorted (key_le Tick.timestamp) ticks -> ticks_after = ticks)
  /\ (Forall (fun b => valid_date (Bar.timestamp b)) bars ->
      StronglySorted (key_le (fun b => instant_of (Bar.timestamp b))) bars ->
      bars_after = bars).
Proof.
  intros ticks_after bars_after.
  assert (Hb : bars_after = sort compare_bars bars).
  { unfold bars_after, resampleBars. destruct bars; [reflexivity |].
    now destruct (parseTimeframe timeframe). }
  assert (Ht : ticks_after = sort compare_ticks ticks \/ ticks_after = ticks).
  { unfold ticks_after, aggregateTicksToBars. destruct ticks; [now right |].
    destruct (parseTimeframe timeframe); [left | right]; reflexivity. }
  assert (Hid : StronglySorted (key_le Tick.timestamp) ticks ->
                sort compare_ticks ticks = ticks).
  { intros Hs. apply sort_sorted_id.
    apply (key_sorted_not_after compare_ticks Tick.timestamp); [| exact Hs].
    intros; apply compare_ticks_key. }
  assert (Hkey : Forall (fun b => valid_date (Bar.timestamp b)) bars ->
            forall x y, In x bars -> In y bars ->
              compare_bars x y
              = Fin (instant_of (Bar.timestamp x)
                     - instant_of (Bar.timestamp y))).
  { intros Hv x y Hx Hy. rewrite Forall_forall in Hv.
    apply compare_bars_key; now apply Hv. }
  split; [| split; [| split; [| split; [| split; [| split; [| split]]]]]].
  - destruct Ht as [-> | ->]; [apply sort_perm | reflexivity].
  - rewrite Hb. apply sort_perm.
  - intros intervalMinutes Hp.
    assert (E : ticks_after = sort compare_ticks ticks).
    { unfold ticks_after, aggregateTicksToBars. destruct ticks; [reflexivity |].
      now rewrite Hp. }
    split; [exact E |]. rewrite E. apply sort_sorted.
    intros; apply compare_ticks_key.
  - intros message Hp. unfold ticks_after, aggregateTicksToBars.
    destruct ticks; [reflexivity |]. now rewrite Hp.
  - exact Hb.
  - intros Hv. rewrite Hb. apply sort_sorted. now apply Hkey.
  - intros Hs. destruct Ht as [-> | ->]; [now apply Hid | reflexivity].
  - intros Hv Hs. rewrite Hb. apply sort_sorted_id.
    eapply key_sorted_not_after; [now apply Hkey | exact Hs].
Qed.

(** C4, as stated, fails on two records given in descending order of their
    timestamps: after the call the caller's array holds them in ascending
    order. *)
Lemma aggregate_reorders_input :
  let ticks := [ Tick.mk 60000 1 1 None None; Tick.mk 0 2 2 None None ] in
  let bars :=
    [ Bar.mk (Instant 60000) 1 1 1 1 0 1 None;
      Bar.mk (Instant 0) 2 2 2 2 0 1 None ] in
  fst (aggregateTicksToBars ticks "1m") <> ticks
  /\ fst (resampleBars bars "1m") <> bars
  /\ map Tick.timestamp (fst (aggregateTicksToBars ticks "1m")) = [0; 60000]
  /\ map Bar.timestamp (fst (resampleBars bars "1m"))
     = [Instant 0; Instant 60000].
Proof.
  cbv zeta. split; [| split; [| split; reflexivity]].
  - intros H. apply (f_equal (map Tick.timestamp)) in H. discriminate H.
  - intros H. apply (f_equal (map Bar.timestamp)) in H. discriminate H.
Qed.

(* ================================================================== *)
(** * The loops, bucket by bucket                                      *)
(* ================================================================== *)

Lemma tick_step_group intervalMinutes st tick :
  tick_step intervalMinutes st tick
  = group_step (bucket_of intervalMinutes)
      (fun d t => add_volume (new_bar d t) t)
      (fun cb t => add_volume (update_bar cb t) t) st tick.
Proof. destruct st as [bars [cb |]]; reflexivity. Qed.

Lemma fold_left_ext {A B} (f g : A -> B -> A) l a :
  (forall a b, f a b = g a b) -> fold_left f l a = fold_left g l a.
Proof.
  intros H. revert a. induction l; simpl; intros; [reflexivity |].
  now rewrite H, IHl.
Qed.

Lemma add_volume_timestamp cb tick :
  Bar.timestamp (add_volume cb tick) = Bar.timestamp cb.
Proof. unfold add_volume. now destruct (_ && _). Qed.

Section GroupLoopFacts.
Context {A : Type} (key : A -> Date) (opens : Date -> A -> Bar.t)
        (merges : Bar.t -> A -> Bar.t) (keyz : A -> Z).
Hypothesis opens_timestamp : forall d x, Bar.timestamp (opens d x) = d.
Hypothesis merges_timestamp :
  forall cb x, Bar.timestamp (merges cb x) = Bar.timestamp cb.

Let step := group_step key opens merges.

(** From an open bar of bucket [c], over records whose buckets ascend from
    [c]: the loop appends bars of strictly ascending buckets, one for each
    bucket met. *)
Lemma group_loop_ascending l : forall bars cb c,
  (forall x, In x l -> key x = Instant (keyz x)) ->
  Bar.timestamp cb = Instant c ->
  StronglySorted Z.le (c :: map keyz l) ->
  exists zs,
    map Bar.timestamp (flush (fold_left step l (bars, Some cb)))
    = map Bar.timestamp bars ++ map Instant (c :: zs)
    /\ StronglySorted Z.lt (c :: zs)
    /\ (forall z, In z zs -> In z (map keyz l))
    /\ (forall z, In z (map keyz l) -> z = c \/ In z zs).
Proof.
  induction l as [| x l IH]; intros bars cb c Hk Hc Hs.
  - exists []. cbn. rewrite map_app. cbn. rewrite Hc.
    repeat split; auto. repeat constructor.
  - cbn [fold_left]. unfold step at 2. cbn [group_step].
    rewrite (Hk x) by now left. rewrite Hc. cbn [getTime].
    inversion Hs as [| ? ? Hs' Hall]; subst. cbn [map] in Hs', Hall.
    inversion Hall as [| ? ? Hcx Hcl]; subst.
    unfold strict_neq. cbn [strict_eq].
    destruct (Z.eqb_spec c (keyz x)) as [E | NE]; cbn [negb].
    + destruct (IH bars (merges cb x) c) as (zs & Hm & Hz & Hin & Hout).
      * intros y Hy. apply Hk. now right.
      * now rewrite merges_timestamp.
      * constructor; [| assumption]. now inversion Hs'.
      * exists zs. split; [exact Hm | split; [exact Hz | split]].
        -- intros z Hz'. right. now apply Hin.
        -- intros z [<- | Hz']; [now left | now apply Hout].
    + destruct (IH (bars ++ [cb]) (opens (Instant (keyz x)) x) (keyz x))
        as (zs & Hm & Hz & Hin & Hout).
      * intros y Hy. apply Hk. now right.
      * apply opens_timestamp.
      * exact Hs'.
      * exists (keyz x :: zs). split; [| split; [| split]].
        -- rewrite Hm, map_app, <- app_assoc. cbn. now rewrite Hc.
        -- constructor; [exact Hz |].
           inversion Hz as [| ? ? _ Hlt]; subst.
           constructor; [lia |]. eapply Forall_impl; [| exact Hlt].
           cbn. intros; lia.
        -- intros z [<- | Hz']; [now left | right; now apply Hin].
        -- intros z [<- | Hz']; [right; now left |].
           destruct (Hout z Hz') as [-> | ?]; right; [now left | now right].
Qed.

(** The whole loop, from [null]. *)
Lemma group_loop_from_null l :
  (forall x, In x l -> key x = Instant (keyz x)) ->
  StronglySorted Z.le (map keyz l) ->
  exists zs,
    map Bar.timestamp (flush (fold_left step l ([], None))) = map Instant zs
    /\ StronglySorted Z.lt zs
    /\ (forall z, In z zs <-> In z (map keyz l)).
Proof.
  intros Hk Hs. destruct l as [| x l].
  - exists []. cbn. repeat split; auto; constructor.
  - cbn [fold_left]. unfold step at 2. cbn [group_step].
    destruct (group_loop_ascending l [] (opens (key x) x) (keyz x))
      as (zs & Hm & Hz & Hin & Hout).
    + intros y Hy. apply Hk. now right.
    + rewrite opens_timestamp. apply Hk. now left.
    + exact Hs.
    + exists (keyz x :: zs). split; [exact Hm | split; [exact Hz |]].
      intros z. cbn [map In]. split.
      * intros [<- | Hz']; [now left | right; now apply Hin].
      * intros [<- | Hz']; [now left |].
        destruct (Hout z Hz') as [-> | ?]; [now left | now right].
Qed.
End GroupLoopFacts.



Lemma bucket_of_Instant intervalMinutes tick :
  intervalMinutes <> 0 ->
  bucket_of intervalMinutes tick
  = Instant (bucket_ms intervalMinutes (Tick.timestamp tick)).
Proof.
  intros H. unfold bucket_of, bucket_ms. cbn [newDate].
  now apply getBarTime_Instant.
Qed.

Lemma bucket_ms_mono intervalMinutes s t :
  0 < intervalMinutes -> s <= t ->
  bucket_ms intervalMinutes s <= bucket_ms intervalMinutes t.
Proof.
  intros Hi Hst. unfold bucket_ms.
  apply Z.mul_le_mono_nonneg_r; [lia |]. apply Z.div_le_mono; lia.
Qed.

Lemma StronglySorted_map_mono {A} (f : A -> Z) (g : Z -> Z) l :
  (forall s t, s <= t -> g s <= g t) ->
  StronglySorted (key_le f) l ->
  StronglySorted Z.le (map (fun x => g (f x)) l).
Proof.
  intros Hg. induction 1 as [| x l Hs IH Hx]; cbn; constructor; auto.
  rewrite Forall_map. eapply Forall_impl; [| exact Hx].
  unfold key_le. cbn. intros; now apply Hg.
Qed.

(** The bucket starts of the bars [aggregateTicksToBars] returns. *)
Lemma aggregate_timestamps ticks timeframe intervalMinutes :
  parseTimeframe timeframe = Ok intervalMinutes -> intervalMinutes <> 0 ->
  exists bars zs,
    snd (aggregateTicksToBars ticks timeframe) = Ok bars
    /\ map Bar.timestamp bars = map Instant zs
    /\ StronglySorted Z.lt zs
    /\ (forall z, In z zs <->
          exists tick, In tick ticks
                       /\ bucket_ms intervalMinutes (Tick.timestamp tick) = z).
Proof.
  intros Hp Hi. pose proof (parseTimeframe_nonneg _ _ Hp) as Hn.
  unfold aggregateTicksToBars. destruct ticks as [| t0 ticks].
  - exists [], []. cbn. split; [reflexivity |]. split; [reflexivity |].
    split; [constructor |].
    intros z; split; [intros [] | intros (? & [] & _)].
  - rewrite Hp. cbn [snd]. set (l := t0 :: ticks).
    destruct (group_loop_from_null (bucket_of intervalMinutes)
                (fun d t => add_volume (new_bar d t) t)
                (fun cb t => add_volume (update_bar cb t) t)
                (fun t => bucket_ms intervalMinutes (Tick.timestamp t))
                (fun d x => add_volume_timestamp _ _)
                (fun cb x => add_volume_timestamp _ _)
                (sort compare_ticks l)) as (zs & Hm & Hz & Hin).
    + intros x _. now apply bucket_of_Instant.
    + apply (StronglySorted_map_mono Tick.timestamp
               (bucket_ms intervalMinutes)).
      * intros s t. apply bucket_ms_mono. lia.
      * apply sort_sorted. intros; apply compare_ticks_key.
    + eexists _, zs. split; [reflexivity |].
      split; [| split; [exact Hz |]].
      * rewrite <- Hm.
        erewrite fold_left_ext; [reflexivity | intros; apply tick_step_group].
      * intros z. rewrite Hin, in_map_iff.
        split; intros (tick & H1 & H2).
        -- exists tick. split; [| exact H1].
           eapply Permutation_in; [symmetry; apply sort_perm | exact H2].
        -- exists tick. split; [exact H2 |].
           eapply Permutation_in; [apply sort_perm | exact H1].
Qed.





(* ================================================================== *)
(** * The order of the floating-point numbers, [Math.max], [Math.min]  *)
(* ================================================================== *)

Lemma key_lt_dec p q : {key_lt p q} + {~ key_lt p q}.
Proof.
  unfold key_lt.
  destruct p as [p1 [p2 p3]], q as [q1 [q2 q3]]; cbn [fst snd].
  destruct (Z_lt_dec p1 q1); [left; lia |].
  destruct (Z.eq_dec p1 q1); [| right; lia].
  destruct (Z_lt_dec p2 q2); [left; lia |].
  destruct (Z.eq_dec p2 q2); [| right; lia].
  destruct (Z_lt_dec p3 q3); [left; lia | right; lia].
Qed.

Lemma before_dec a b : {before a b} + {~ before a b}.
Proof. apply key_lt_dec. Qed.

Lemma key_lt_trans p q r : key_lt p q -> key_lt q r -> key_lt p r.
Proof. unfold key_lt. lia. Qed.

Lemma key_lt_irrefl p : ~ key_lt p p.
Proof. unfold key_lt. lia. Qed.

Lemma key_lt_total p q : ~ key_lt p q -> ~ key_lt q p -> p = q.
Proof.
  unfold key_lt. destruct p as [p1 [p2 p3]], q as [q1 [q2 q3]]; cbn [fst snd].
  intros H1 H2. repeat f_equal; lia.
Qed.

Lemma order_key_inj x y : order_key x = order_key y -> x = y.
Proof.
  destruct x as [[] | [] | | [] m e], y as [[] | [] | | [] m' e'];
    cbn; intros [=]; try reflexivity; try lia; f_equal; lia.
Qed.

Lemma before_trans a b c : before a b -> before b c -> before a c.
Proof. apply key_lt_trans. Qed.

Lemma before_irrefl a : ~ before a a.
Proof. apply key_lt_irrefl. Qed.

Lemma before_total a b : ~ before a b -> ~ before b a -> a = b.
Proof.
  intros H1 H2. apply Prim2SF_inj, order_key_inj. now apply key_lt_total.
Qed.

(** NaN and the two zeros, read on the specification side. *)
Lemma is_nan_Prim2SF a : is_nan a = true -> Prim2SF a = S754_nan.
Proof. intros H. unfold Prim2SF. now rewrite H. Qed.

Lemma not_nan_Prim2SF a : not_nan a -> Prim2SF a <> S754_nan.
Proof.
  unfold not_nan. intros H E.
  assert (Hc : (a =? a)%float = false).
  { rewrite eqb_spec, E. reflexivity. }
  unfold is_nan in H. rewrite Hc in H. discriminate.
Qed.

Lemma Prim2SF_zero a s :
  Prim2SF a = S754_zero s -> a = if s then neg_zero else zero.
Proof.
  intros H. rewrite <- (SF2Prim_Prim2SF a), H. now destruct s.
Qed.

Ltac compare_cases :=
  repeat match goal with
  | |- context [Z.compare ?a ?b] => destruct (Z.compare_spec a b)
  | |- context [Pos.compare_cont Eq ?a ?b] =>
      change (Pos.compare_cont Eq a b) with (Pos.compare a b);
      destruct (Pos.compare_spec a b)
  end.

(** [<] and [<=] of the numbers, read on the keys. *)
Lemma SFltb_key x y :
  x <> S754_nan -> y <> S754_nan ->
  (SFltb x y = true <->
   key_lt (order_key x) (order_key y) /\ ~ both_zero x y).
Proof.
  intros Hx Hy. unfold SFltb, key_lt, both_zero.
  destruct x as [[] | [] | | [] m e], y as [[] | [] | | [] m' e'];
    try contradiction; cbn [SFcompare order_key fst snd]; compare_cases;
    cbn [CompOpp];
    (split;
     [ intros Hlt; try discriminate Hlt;
       (split; [lia | intros [[? ?] [? ?]]; discriminate])
     | intros [Hlt Hz]; try reflexivity; try lia;
       exfalso; apply Hz; split; eexists; reflexivity ]).
Qed.

Lemma SFleb_key x y :
  x <> S754_nan -> y <> S754_nan ->
  (SFleb x y = true <->
   ~ key_lt (order_key y) (order_key x) \/ both_zero x y).
Proof.
  intros Hx Hy. unfold SFleb, key_lt, both_zero.
  destruct x as [[] | [] | | [] m e], y as [[] | [] | | [] m' e'];
    try contradiction; cbn [SFcompare order_key fst snd]; compare_cases;
    cbn [CompOpp];
    (split;
     [ intros Hle; try discriminate Hle;
       first [ left; lia | right; split; eexists; reflexivity ]
     | intros [Hle | [[? ?] [? ?]]]; try reflexivity; try lia; discriminate ]).
Qed.

Lemma ltb_before a b :
  not_nan a -> not_nan b ->
  ((a <? b)%float = true <->
   before a b /\ ~ both_zero (Prim2SF a) (Prim2SF b)).
Proof.
  intros Ha Hb. rewrite ltb_spec. apply SFltb_key; now apply not_nan_Prim2SF.
Qed.

Lemma leb_before a b :
  not_nan a -> not_nan b ->
  ((a <=? b)%float = true <->
   ~ before b a \/ both_zero (Prim2SF a) (Prim2SF b)).
Proof.
  intros Ha Hb. rewrite leb_spec. apply SFleb_key; now apply not_nan_Prim2SF.
Qed.

Lemma leb_not_nan a b : (a <=? b)%float = true -> not_nan a /\ not_nan b.
Proof.
  rewrite leb_spec. unfold not_nan. intros H.
  destruct (is_nan a) eqn:Ea.
  { apply is_nan_Prim2SF in Ea. rewrite Ea in H. discriminate. }
  destruct (is_nan b) eqn:Eb; [| now split].
  apply is_nan_Prim2SF in Eb. rewrite Eb in H.
  unfold SFleb, SFcompare in H. now destruct (Prim2SF a).
Qed.

(** The two zeros are the only numbers that compare equal without being the
    same number. *)
Lemma both_zero_cases a b :
  both_zero (Prim2SF a) (Prim2SF b) ->
  (a = zero \/ a = neg_zero) /\ (b = zero \/ b = neg_zero).
Proof.
  intros [[s Hs] [s' Hs']].
  apply Prim2SF_zero in Hs. apply Prim2SF_zero in Hs'.
  destruct s, s'; subst; auto.
Qed.

Lemma both_zero_dec a b :
  {both_zero (Prim2SF a) (Prim2SF b)} + {~ both_zero (Prim2SF a) (Prim2SF b)}.
Proof.
  unfold both_zero.
  destruct (Prim2SF a) as [s | | |];
    try (right; intros [[? ?] _]; discriminate).
  destruct (Prim2SF b) as [s' | | |];
    try (right; intros [_ [? ?]]; discriminate).
  left. split; eexists; reflexivity.
Qed.

Lemma before_zero_cases :
  before neg_zero zero /\ ~ before zero neg_zero
  /\ ~ before zero zero /\ ~ before neg_zero neg_zero.
Proof.
  unfold before, key_lt. cbn. lia.
Qed.

(** [Math.max] picks the number that comes later, [Math.min] the one that
    comes first. *)
Lemma Math_max_spec a b :
  not_nan a -> not_nan b ->
  (before a b -> Math_max a b = b) /\ (~ before a b -> Math_max a b = a).
Proof.
  intros Ha Hb. unfold Math_max. rewrite Ha, Hb. cbn [orb].
  pose proof (ltb_before a b Ha Hb) as Hab.
  pose proof (ltb_before b a Hb Ha) as Hba.
  destruct (a <? b)%float.
  { destruct Hab as [Hab _]. destruct (Hab eq_refl). tauto. }
  destruct (b <? a)%float.
  { destruct Hba as [Hba _]. destruct (Hba eq_refl) as [Hlt _].
    split; [| reflexivity]. intros H. destruct (before_irrefl a).
    eapply before_trans; eassumption. }
  destruct (both_zero_dec a b) as [Hz | Hz].
  - destruct before_zero_cases as (Z1 & Z2 & Z3 & Z4).
    destruct (both_zero_cases a b Hz) as [[-> | ->] [-> | ->]];
      split; intros H; try reflexivity; tauto.
  - assert (a = b) as ->.
    { apply before_total.
      - intros H. assert (false = true); [| discriminate]. apply Hab. tauto.
      - intros H. assert (false = true); [| discriminate]. apply Hba.
        split; [exact H |]. unfold both_zero in *. tauto. }
    split; intros _; now destruct (get_sign b).
Qed.

Lemma Math_min_spec a b :
  not_nan a -> not_nan b ->
  (before a b -> Math_min a b = a) /\ (~ before a b -> Math_min a b = b).
Proof.
  intros Ha Hb. unfold Math_min. rewrite Ha, Hb. cbn [orb].
  pose proof (ltb_before a b Ha Hb) as Hab.
  pose proof (ltb_before b a Hb Ha) as Hba.
  destruct (a <? b)%float.
  { destruct Hab as [Hab _]. destruct (Hab eq_refl). tauto. }
  destruct (b <? a)%float.
  { destruct Hba as [Hba _]. destruct (Hba eq_refl) as [Hlt _].
    split; [| reflexivity]. intros H. destruct (before_irrefl a).
    eapply before_trans; eassumption. }
  destruct (both_zero_dec a b) as [Hz | Hz].
  - destruct before_zero_cases as (Z1 & Z2 & Z3 & Z4).
    destruct (both_zero_cases a b Hz) as [[-> | ->] [-> | ->]];
      split; intros H; try reflexivity; tauto.
  - assert (a = b) as ->.
    { apply before_total.
      - intros H. assert (false = true); [| discriminate]. apply Hab. tauto.
      - intros H. assert (false = true); [| discriminate]. apply Hba.
        split; [exact H |]. unfold both_zero in *. tauto. }
    split; intros _; now destruct (get_sign b).
Qed.

Lemma Math_max_nan_l a b : is_nan a = true -> Math_max a b = nan.
Proof. intros H. unfold Math_max. now rewrite H. Qed.

Lemma Math_max_nan_r a b : is_nan b = true -> Math_max a b = nan.
Proof. intros H. unfold Math_max. rewrite H. now rewrite orb_true_r. Qed.

Lemma Math_min_nan_l a b : is_nan a = true -> Math_min a b = nan.
Proof. intros H. unfold Math_min. now rewrite H. Qed.

Lemma Math_min_nan_r a b : is_nan b = true -> Math_min a b = nan.
Proof. intros H. unfold Math_min. rewrite H. now rewrite orb_true_r. Qed.

Lemma Math_max_cases a b :
  not_nan a -> not_nan b -> Math_max a b = a \/ Math_max a b = b.
Proof.
  intros Ha Hb. destruct (Math_max_spec a b Ha Hb) as [H1 H2].
  destruct (before_dec a b); auto.
Qed.

Lemma Math_min_cases a b :
  not_nan a -> not_nan b -> Math_min a b = a \/ Math_min a b = b.
Proof.
  intros Ha Hb. destruct (Math_min_spec a b Ha Hb) as [H1 H2].
  destruct (before_dec a b); auto.
Qed.

Lemma not_nan_dec a : {not_nan a} + {is_nan a = true}.
Proof. unfold not_nan. destruct (is_nan a); auto. Qed.

(** [Math.max] and [Math.min] are associative, NaN and the two zeros
    included. *)
Lemma Math_max_assoc a b c :
  Math_max (Math_max a b) c = Math_max a (Math_max b c).
Proof.
  destruct (not_nan_dec a) as [Ha | Ha].
  2: { now rewrite (Math_max_nan_l a b Ha), (Math_max_nan_l a _ Ha). }
  destruct (not_nan_dec b) as [Hb | Hb].
  2: { rewrite (Math_max_nan_r a b Hb), (Math_max_nan_l b c Hb).
       rewrite Math_max_nan_l, Math_max_nan_r; reflexivity. }
  destruct (not_nan_dec c) as [Hc | Hc].
  2: { rewrite (Math_max_nan_r b c Hc), !Math_max_nan_r; auto. }
  destruct (Math_max_spec a b Ha Hb) as [ab1 ab2].
  destruct (Math_max_spec b c Hb Hc) as [bc1 bc2].
  destruct (Math_max_spec a c Ha Hc) as [ac1 ac2].
  destruct (before_dec a b) as [Hab | Hab], (before_dec b c) as [Hbc | Hbc];
    rewrite ?(ab1 Hab), ?(ab2 Hab), ?(bc1 Hbc), ?(bc2 Hbc);
    rewrite ?(ab1 Hab), ?(ab2 Hab), ?(bc1 Hbc), ?(bc2 Hbc); try reflexivity.
  - rewrite ac1; [reflexivity |]. eapply before_trans; eassumption.
  - rewrite ac2; [reflexivity |].
    intros Hac. destruct (before_dec c b) as [Hcb | Hcb].
    + apply Hab. eapply before_trans; eassumption.
    + assert (b = c) by now apply before_total. subst. tauto.
Qed.

Lemma Math_min_assoc a b c :
  Math_min (Math_min a b) c = Math_min a (Math_min b c).
Proof.
  destruct (not_nan_dec a) as [Ha | Ha].
  2: { now rewrite (Math_min_nan_l a b Ha), (Math_min_nan_l a _ Ha). }
  destruct (not_nan_dec b) as [Hb | Hb].
  2: { rewrite (Math_min_nan_r a b Hb), (Math_min_nan_l b c Hb).
       rewrite Math_min_nan_l, Math_min_nan_r; reflexivity. }
  destruct (not_nan_dec c) as [Hc | Hc].
  2: { rewrite (Math_min_nan_r b c Hc), !Math_min_nan_r; auto. }
  destruct (Math_min_spec a b Ha Hb) as [ab1 ab2].
  destruct (Math_min_spec b c Hb Hc) as [bc1 bc2].
  destruct (Math_min_spec a c Ha Hc) as [ac1 ac2].
  destruct (before_dec a b) as [Hab | Hab], (before_dec b c) as [Hbc | Hbc];
    rewrite ?(ab1 Hab), ?(ab2 Hab), ?(bc1 Hbc), ?(bc2 Hbc);
    rewrite ?(ab1 Hab), ?(ab2 Hab), ?(bc1 Hbc), ?(bc2 Hbc); try reflexivity.
  - rewrite ac1; [reflexivity |]. eapply before_trans; eassumption.
  - rewrite ac2; [reflexivity |].
    intros Hac. destruct (before_dec c b) as [Hcb | Hcb].
    + apply Hab. eapply before_trans; eassumption.
    + assert (b = c) by now apply before_total. subst. tauto.
Qed.

Lemma leb_refl a : not_nan a -> (a <=? a)%float = true.
Proof. intros H. apply leb_before; auto. left. apply before_irrefl. Qed.

Lemma leb_trans a b c :
  (a <=? b)%float = true -> (b <=? c)%float = true -> (a <=? c)%float = true.
Proof.
  intros Hab Hbc.
  destruct (leb_not_nan _ _ Hab) as [Ha Hb].
  destruct (leb_not_nan _ _ Hbc) as [_ Hc].
  apply leb_before in Hab; auto. apply leb_before in Hbc; auto.
  apply leb_before; auto.
  unfold before, both_zero in *.
  destruct (Prim2SF a) as [[] | [] | | [] ma ea],
           (Prim2SF b) as [[] | [] | | [] mb eb],
           (Prim2SF c) as [[] | [] | | [] mc ec];
    cbn [order_key] in *; unfold key_lt in *; cbn [fst snd] in *;
    (destruct Hab as [Hab | [[? Hab] [? Hab']]];
       [| try discriminate Hab; try discriminate Hab']);
    (destruct Hbc as [Hbc | [[? Hbc] [? Hbc']]];
       [| try discriminate Hbc; try discriminate Hbc']);
    first [ left; lia | right; split; eexists; reflexivity ].
Qed.

Lemma Math_max_ge a b :
  not_nan a -> not_nan b ->
  (a <=? Math_max a b)%float = true /\ (b <=? Math_max a b)%float = true.
Proof.
  intros Ha Hb. destruct (Math_max_spec a b Ha Hb) as [H1 H2].
  destruct (before_dec a b) as [H | H].
  - rewrite (H1 H). split; [| now apply leb_refl].
    apply leb_before; auto. left. intros H'.
    destruct (before_irrefl a). eapply before_trans; eassumption.
  - rewrite (H2 H). split; [now apply leb_refl |].
    apply leb_before; auto.
Qed.

Lemma Math_min_le a b :
  not_nan a -> not_nan b ->
  (Math_min a b <=? a)%float = true /\ (Math_min a b <=? b)%float = true.
Proof.
  intros Ha Hb. destruct (Math_min_spec a b Ha Hb) as [H1 H2].
  destruct (before_dec a b) as [H | H].
  - rewrite (H1 H). split; [now apply leb_refl |].
    apply leb_before; auto. left. intros H'.
    destruct (before_irrefl a). eapply before_trans; eassumption.
  - rewrite (H2 H). split; [| now apply leb_refl].
    apply leb_before; auto.
Qed.

(* ================================================================== *)
(** * The invariant of bars                                            *)
(* ================================================================== *)

(** The invariant holds exactly when the four comparisons do. *)
Lemma bar_invariant_ordered b : bar_invariant b <-> ordered b.
Proof.
  unfold bar_invariant, ordered. split.
  - intros [Hl Hh].
    destruct (leb_not_nan _ _ Hl) as [_ Hmin].
    destruct (leb_not_nan _ _ Hh) as [Hmax _].
    assert (Ho : not_nan (Bar.open b)).
    { destruct (not_nan_dec (Bar.open b)) as [H | H]; [exact H |].
      rewrite (Math_min_nan_l _ _ H) in Hmin. discriminate. }
    assert (Hc : not_nan (Bar.close b)).
    { destruct (not_nan_dec (Bar.close b)) as [H | H]; [exact H |].
      rewrite (Math_min_nan_r _ _ H) in Hmin. discriminate. }
    destruct (Math_min_le _ _ Ho Hc) as [m1 m2].
    destruct (Math_max_ge _ _ Ho Hc) as [M1 M2].
    split; [exact (leb_trans _ _ _ Hl m1) |].
    split; [exact (leb_trans _ _ _ Hl m2) |].
    split; [exact (leb_trans _ _ _ M1 Hh) | exact (leb_trans _ _ _ M2 Hh)].
  - intros (H1 & H2 & H3 & H4).
    destruct (leb_not_nan _ _ H3) as [Ho _].
    destruct (leb_not_nan _ _ H4) as [Hc _].
    split.
    + now destruct (Math_min_cases _ _ Ho Hc) as [-> | ->].
    + now destruct (Math_max_cases _ _ Ho Hc) as [-> | ->].
Qed.

Lemma add_volume_ordered cb tick : ordered cb -> ordered (add_volume cb tick).
Proof. unfold add_volume. now destruct (_ && _). Qed.

Lemma new_bar_ordered d tick :
  not_nan (midPrice tick) -> ordered (new_bar d tick).
Proof.
  intros H. unfold ordered. cbn. rewrite leb_refl by assumption. auto.
Qed.

Lemma update_bar_ordered cb tick :
  not_nan (midPrice tick) -> ordered cb -> ordered (update_bar cb tick).
Proof.
  intros Hm (H1 & H2 & H3 & H4). unfold ordered. cbn.
  destruct (leb_not_nan _ _ H1) as [Hl _].
  destruct (leb_not_nan _ _ H4) as [_ Hh].
  destruct (Math_min_le _ _ Hl Hm) as [m1 m2].
  destruct (Math_max_ge _ _ Hh Hm) as [M1 M2].
  split; [exact (leb_trans _ _ _ m1 H1) |].
  split; [exact m2 |].
  split; [exact (leb_trans _ _ _ H3 M1) | exact M2].
Qed.

Lemma new_resampled_ordered d bar :
  ordered bar -> ordered (new_resampled d bar).
Proof. intros H. exact H. Qed.

Lemma update_resampled_ordered cb bar :
  ordered cb -> ordered bar -> ordered (update_resampled cb bar).
Proof.
  intros (H1 & H2 & H3 & H4) (B1 & B2 & B3 & B4). unfold ordered. cbn.
  destruct (leb_not_nan _ _ H1) as [Hl _].
  destruct (leb_not_nan _ _ H4) as [_ Hh].
  destruct (leb_not_nan _ _ B1) as [Bl _].
  destruct (leb_not_nan _ _ B4) as [_ Bh].
  destruct (Math_min_le _ _ Hl Bl) as [m1 m2].
  destruct (Math_max_ge _ _ Hh Bh) as [M1 M2].
  split; [exact (leb_trans _ _ _ m1 H1) |].
  split; [exact (leb_trans _ _ _ m2 B2) |].
  split; [exact (leb_trans _ _ _ H3 M1) | exact (leb_trans _ _ _ B4 M2)].
Qed.

Lemma state_invariant_init : state_invariant ([], None).
Proof. split; [constructor | discriminate]. Qed.

Lemma tick_step_invariant intervalMinutes st tick :
  not_nan (midPrice tick) -> state_invariant st ->
  state_invariant (tick_step intervalMinutes st tick).
Proof.
  intros Hm [Hb Hc]. destruct st as [bars [cb |]]; cbn in *.
  - specialize (Hc cb eq_refl).
    destruct (strict_neq _ _); split; cbn.
    + apply Forall_app. split; [exact Hb | now constructor].
    + intros ? [= <-]. apply bar_invariant_ordered.
      now apply add_volume_ordered, new_bar_ordered.
    + exact Hb.
    + intros ? [= <-]. apply bar_invariant_ordered.
      apply add_volume_ordered, update_bar_ordered; [exact Hm |].
      now apply bar_invariant_ordered.
  - split; cbn; [exact Hb |].
    intros ? [= <-]. apply bar_invariant_ordered.
    now apply add_volume_ordered, new_bar_ordered.
Qed.

Lemma bar_step_invariant targetMinutes st bar :
  bar_invariant bar -> state_invariant st ->
  state_invariant (bar_step targetMinutes st bar).
Proof.
  intros Hm [Hb Hc]. apply bar_invariant_ordered in Hm.
  destruct st as [bars [cb |]]; cbn in *.
  - specialize (Hc cb eq_refl).
    destruct (strict_neq _ _); split; cbn.
    + apply Forall_app. split; [exact Hb | now constructor].
    + intros ? [= <-]. now apply bar_invariant_ordered, new_resampled_ordered.
    + exact Hb.
    + intros ? [= <-]. apply bar_invariant_ordered.
      apply update_resampled_ordered; [| exact Hm].
      now apply bar_invariant_ordered.
  - split; cbn; [exact Hb |].
    intros ? [= <-]. now apply bar_invariant_ordered, new_resampled_ordered.
Qed.

Lemma fold_left_invariant {A} (good : A -> Prop)
  (step : loop_state -> A -> loop_state) :
  (forall st x, good x -> state_invariant st -> state_invariant (step st x)) ->
  forall l st, Forall good l -> state_invariant st ->
               state_invariant (fold_left step l st).
Proof.
  intros Hstep. induction l as [| x l IH]; cbn; intros st Hl Hst; [exact Hst |].
  inversion Hl; subst. apply IH; auto.
Qed.

Lemma flush_invariant st :
  state_invariant st -> Forall bar_invariant (flush st).
Proof.
  intros [Hb Hc]. unfold flush. destruct (snd st) as [cb |]; [| exact Hb].
  apply Forall_app. split; [exact Hb |]. constructor; auto.
Qed.

Lemma aggregate_Ok ticks timeframe intervalMinutes :
  parseTimeframe timeframe = Ok intervalMinutes ->
  snd (aggregateTicksToBars ticks timeframe)
  = Ok (flush (fold_left (tick_step intervalMinutes)
                 (sort compare_ticks ticks) ([], None))).
Proof.
  intros Hp. unfold aggregateTicksToBars.
  destruct ticks; [reflexivity |]. now rewrite Hp.
Qed.

Lemma resample_Ok bars timeframe targetMinutes :
  parseTimeframe timeframe = Ok targetMinutes ->
  snd (resampleBars bars timeframe)
  = Ok (flush (fold_left (bar_step targetMinutes)
                 (sort compare_bars bars) ([], None))).
Proof.
  intros Hp. unfold resampleBars.
  destruct bars; [reflexivity |]. now rewrite Hp.
Qed.

Lemma Forall_app_l {A} (P : A -> Prop) l1 l2 :
  Forall P (l1 ++ l2) -> Forall P l1.
Proof. intros H. now apply Forall_app in H. Qed.

(** C9.  Over ticks whose mid prices are numbers (every tick with finite bid
    and ask has one) and over source bars that satisfy the invariant of
    bars, every bar [aggregateTicksToBars] and [resampleBars] return
    satisfies [low <= min(open, close)] and [high >= max(open, close)], and
    so do the bars pushed so far and the open bar after each iteration of
    the two loops. *)
Theorem bars_keep_invariant
  (ticks : list Tick.t) (source : list Bar.t) (timeframe : string)
  (intervalMinutes : Z) :
  parseTimeframe timeframe = Ok intervalMinutes ->
  Forall (fun tick => not_nan (midPrice tick)) ticks ->
  Forall bar_invariant source ->
  (exists bars, snd (aggregateTicksToBars ticks timeframe) = Ok bars
                /\ Forall bar_invariant bars)
  /\ (exists bars, snd (resampleBars source timeframe) = Ok bars
                   /\ Forall bar_invariant bars)
  /\ (forall processed rest,
        sort compare_ticks ticks = processed ++ rest ->
        state_invariant
          (fold_left (tick_step intervalMinutes) processed ([], None)))
  /\ (forall processed rest,
        sort compare_bars source = processed ++ rest ->
        state_invariant
          (fold_left (bar_step intervalMinutes) processed ([], None))).
Proof.
  intros Hp Ht Hs.
  assert (Ht' : Forall (fun tick => not_nan (midPrice tick))
                  (sort compare_ticks ticks)).
  { eapply Permutation_Forall; [apply sort_perm | exact Ht]. }
  assert (Hs' : Forall bar_invariant (sort compare_bars source)).
  { eapply Permutation_Forall; [apply sort_perm | exact Hs]. }
  assert (Tick_loop : forall l,
            Forall (fun tick => not_nan (midPrice tick)) l ->
            state_invariant
              (fold_left (tick_step intervalMinutes) l ([], None))).
  { intros l Hl. apply (fold_left_invariant _ _ (tick_step_invariant _)); auto.
    apply state_invariant_init. }
  assert (Bar_loop : forall l,
            Forall bar_invariant l ->
            state_invariant
              (fold_left (bar_step intervalMinutes) l ([], None))).
  { intros l Hl. apply (fold_left_invariant _ _ (bar_step_invariant _)); auto.
    apply state_invariant_init. }
  split; [| split; [| split]].
  - rewrite (aggregate_Ok _ _ _ Hp). eexists. split; [reflexivity |].
    now apply flush_invariant, Tick_loop.
  - rewrite (resample_Ok _ _ _ Hp). eexists. split; [reflexivity |].
    now apply flush_invariant, Bar_loop.
  - intros processed rest E. apply Tick_loop.
    rewrite E in Ht'. now apply Forall_app_l in Ht'.
  - intros processed rest E. apply Bar_loop.
    rewrite E in Hs'. now apply Forall_app_l in Hs'.
Qed.

(** Three ticks, and two bars to resample, in five-minute buckets. *)
Lemma bars_keep_invariant_witness :
  let ticks :=
    [ Tick.mk 90000 1.11 1.12 None None; Tick.mk 0 1.10 1.11 None None;
      Tick.mk 30000 1.12 1.13 None None ] in
  let source :=
    [ Bar.mk (Instant 0) 1.105 1.125 1.105 1.125 0 2 None;
      Bar.mk (Instant 60000) 1.115 1.115 1.115 1.115 0 1 None ] in
  (exists bars, snd (aggregateTicksToBars ticks "5m") = Ok bars
                /\ Forall bar_invariant bars)
  /\ (exists bars, snd (resampleBars source "5m") = Ok bars
                   /\ Forall bar_invariant bars)
  /\ (forall processed rest,
        sort compare_ticks ticks = processed ++ rest ->
        state_invariant (fold_left (tick_step 5) processed ([], None)))
  /\ (forall processed rest,
        sort compare_bars source = processed ++ rest ->
        state_invariant (fold_left (bar_step 5) processed ([], None))).
Proof.
  apply (bars_keep_invariant _ _ "5m" 5).
  - reflexivity.
  - repeat constructor.
  - repeat constructor.
Defined.

(* ================================================================== *)
(** * Resampling                                                       *)
(* ================================================================== *)

Lemma getBarTime_coarser fine k t :
  0 < fine -> 0 < k ->
  getBarTime (getBarTime (Instant t) fine) (k * fine)
  = getBarTime (Instant t) (k * fine).
Proof.
  intros Hf Hk. rewrite !getBarTime_Instant by nia. f_equal.
  set (f := fine * 60 * 1000).
  replace (k * fine * 60 * 1000) with (k * f) by (unfold f; ring).
  assert (0 < f) by (unfold f; lia).
  rewrite Z.div_mul_cancel_r by lia.
  rewrite Z.div_div by lia. now rewrite (Z.mul_comm f k).
Qed.

Lemma add_volume_ohlc cb tick : ohlc (add_volume cb tick) = ohlc cb.
Proof. unfold add_volume. now destruct (_ && _). Qed.

Lemma view_flush st st' :
  view st = view st' -> map ohlc (flush st) = map ohlc (flush st').
Proof.
  destruct st as [bs [c |]], st' as [bs' [c' |]]; unfold view, flush; cbn;
    intros H; rewrite ?map_app; cbn; congruence.
Qed.

Lemma strict_neq_false a b :
  strict_neq (getTime a) (getTime b) = false -> a = b /\ valid_date a.
Proof.
  unfold strict_neq. destruct a as [x |], b as [y |]; cbn; try discriminate.
  intros H. apply negb_false_iff, Z.eqb_eq in H. subst.
  split; [reflexivity | now exists y].
Qed.

Lemma Some_eq_inv {A} (x y : A) : Some x = Some y -> x = y.
Proof. congruence. Qed.

(** [ohlc] of the bars the two loops build. *)
Lemma ohlc_opened d tick :
  ohlc (add_volume (new_bar d tick) tick)
  = (d, midPrice tick, midPrice tick, midPrice tick, midPrice tick).
Proof. now rewrite add_volume_ohlc. Qed.

Lemma ohlc_updated b tick t o h l c :
  ohlc b = (t, o, h, l, c) ->
  ohlc (add_volume (update_bar b tick) tick)
  = (t, o, Math_max h (midPrice tick), Math_min l (midPrice tick),
     midPrice tick).
Proof. rewrite add_volume_ohlc. unfold ohlc. cbn. congruence. Qed.

Lemma ohlc_new_resampled d b t o h l c :
  ohlc b = (t, o, h, l, c) -> ohlc (new_resampled d b) = (d, o, h, l, c).
Proof. unfold ohlc. cbn. congruence. Qed.

Lemma ohlc_update_resampled cb b t o h l c t' o' h' l' c' :
  ohlc cb = (t, o, h, l, c) -> ohlc b = (t', o', h', l', c') ->
  ohlc (update_resampled cb b) = (t, o, Math_max h h', Math_min l l', c').
Proof. unfold ohlc. cbn. congruence. Qed.

Lemma ohlc_eta b :
  ohlc b = (Bar.timestamp b, Bar.open b, Bar.high b, Bar.low b, Bar.close b).
Proof. reflexivity. Qed.

Section Resampling.
Variables fine k : Z.
Hypothesis fine_pos : 0 < fine.
Hypothesis k_pos : 0 < k.
Let coarse := k * fine.

(** A tick that opens a fine bar: the coarse loop on the tick and the
    resampling loop on the fine bar make the same move. *)
Lemma step_opened direct resampled tick :
  view direct = view resampled ->
  view (tick_step coarse direct tick)
  = view (bar_step coarse resampled
            (add_volume (new_bar (bucket_of fine tick) tick) tick)).
Proof.
  destruct direct as [db dc], resampled as [rb rc]. unfold view. cbn [fst snd].
  intros [= Hb Hc]. cbn [tick_step bar_step].
  rewrite newDate_getTime, add_volume_timestamp. cbn [new_bar Bar.timestamp].
  unfold bucket_of. cbn [newDate]. unfold coarse.
  rewrite getBarTime_coarser by assumption.
  destruct dc as [d |], rc as [r |]; try discriminate; cbn [option_map] in Hc.
  - assert (Ho : ohlc d = ohlc r) by congruence.
    assert (Ht : Bar.timestamp d = Bar.timestamp r).
    { unfold ohlc in Ho. congruence. }
    rewrite Ht. destruct (strict_neq _ _); cbn [fst snd option_map].
    + rewrite !map_app. cbn [map]. rewrite Hb, Ho. do 2 f_equal.
      erewrite ohlc_new_resampled by apply ohlc_opened.
      apply ohlc_opened.
    + rewrite Hb. do 2 f_equal.
      erewrite ohlc_updated by apply ohlc_eta.
      erewrite ohlc_update_resampled; [| apply ohlc_eta | apply ohlc_opened].
      unfold ohlc in Ho. congruence.
  - cbn [fst snd option_map]. rewrite Hb. do 2 f_equal.
    erewrite ohlc_new_resampled by apply ohlc_opened.
    apply ohlc_opened.
Qed.

(** A tick that updates the open fine bar [cb]. *)
Lemma step_updated direct resampled cb tick :
  Bar.timestamp cb = bucket_of fine tick ->
  view direct = view (bar_step coarse resampled cb) ->
  view (tick_step coarse direct tick)
  = view (bar_step coarse resampled (add_volume (update_bar cb tick) tick)).
Proof.
  intros Hcb. destruct direct as [db dc], resampled as [rb rc].
  unfold view. cbn [bar_step tick_step].
  rewrite !newDate_getTime, add_volume_timestamp.
  cbn [update_bar Bar.timestamp]. rewrite Hcb.
  unfold bucket_of. cbn [newDate]. unfold coarse.
  rewrite getBarTime_coarser by assumption.
  rewrite getBarTime_Instant by nia.
  set (K := Tick.timestamp tick / (k * fine * 60 * 1000)
            * (k * fine * 60 * 1000)).
  assert (Same : strict_neq (Fin K) (Fin K) = false).
  { unfold strict_neq. cbn. now rewrite Z.eqb_refl. }
  destruct rc as [r |];
    [ destruct (strict_neq (getTime (Bar.timestamp r)) (getTime (Instant K)))
        eqn:Hr |];
    cbn [fst snd option_map]; intros [= Hb Hd];
    (destruct dc as [d |]; [| discriminate]); apply Some_eq_inv in Hd;
    cbv iota;
    assert (Ht : Bar.timestamp d = Instant K)
      by (apply strict_neq_false in Hr as [Hr _] || idtac;
          unfold ohlc in Hd; cbn in Hd; congruence);
    rewrite Ht; cbn [getTime]; rewrite Same; cbn [fst snd option_map];
    rewrite Hb; do 2 f_equal.
  - erewrite ohlc_updated
      by (rewrite Hd; eapply ohlc_new_resampled; apply ohlc_eta).
    erewrite ohlc_new_resampled by (eapply ohlc_updated; apply ohlc_eta).
    reflexivity.
  - erewrite ohlc_updated
      by (rewrite Hd; eapply ohlc_update_resampled; apply ohlc_eta).
    erewrite ohlc_update_resampled;
      [| apply ohlc_eta | eapply ohlc_updated; apply ohlc_eta].
    now rewrite Math_max_assoc, Math_min_assoc.
  - erewrite ohlc_updated
      by (rewrite Hd; eapply ohlc_new_resampled; apply ohlc_eta).
    erewrite ohlc_new_resampled by (eapply ohlc_updated; apply ohlc_eta).
    reflexivity.
Qed.

(** The coarse loop on the ticks, and the resampling loop on the fine bars
    of the same ticks, build the same bars as far as [ohlc] reads them. *)
Lemma loops_agree ticks :
  view (fold_left (tick_step coarse) ticks ([], None))
  = view (fold_left (bar_step coarse)
            (flush (fold_left (tick_step fine) ticks ([], None))) ([], None)).
Proof.
  induction ticks as [| tick ticks IH] using rev_ind; [reflexivity |].
  rewrite !fold_left_app. cbn [fold_left].
  destruct (fold_left (tick_step fine) ticks ([], None)) as [fb fc] eqn:Hf.
  unfold flush in IH. cbn [fst snd] in IH.
  cbn [tick_step].
  destruct fc as [cb |].
  - fold (bucket_of fine tick).
    destruct (strict_neq (getTime (Bar.timestamp cb))
                (getTime (bucket_of fine tick)))
      eqn:Hn; unfold flush; cbn [fst snd].
    + rewrite fold_left_app. cbn [fold_left]. now apply step_opened.
    + rewrite fold_left_app. cbn [fold_left].
      rewrite fold_left_app in IH. cbn [fold_left] in IH.
      apply strict_neq_false in Hn as [Hn _].
      now apply step_updated.
  - unfold flush; cbn [fst snd].
    rewrite fold_left_app. cbn [fold_left]. now apply step_opened.
Qed.
End Resampling.

(** C6, as amended.  For every tick sequence, the 15-minute bars aggregated
    from the ticks and the 15-minute bars resampled from the 5-minute bars
    of the same ticks are the same bars in bucket start, open, high, low and
    close.  (Their volumes are sums of the same tick volumes, added in a
    different grouping, and floating-point addition rounds differently in
    different groupings.) *)
Theorem resample_agrees_on_prices (ticks : list Tick.t) :
  exists direct fine coarse,
    snd (aggregateTicksToBars ticks "15m") = Ok direct
    /\ snd (aggregateTicksToBars ticks "5m") = Ok fine
    /\ snd (resampleBars fine "15m") = Ok coarse
    /\ map ohlc coarse = map ohlc direct.
Proof.
  assert (P5 : parseTimeframe "5m" = Ok 5) by reflexivity.
  assert (P15 : parseTimeframe "15m" = Ok 15) by reflexivity.
  destruct (aggregate_timestamps ticks "5m" 5 P5 ltac:(lia))
    as (fine & zs & Hf & Hm & Hz & _).
  exists (flush (fold_left (tick_step 15) (sort compare_ticks ticks)
                   ([], None))),
         fine,
         (flush (fold_left (bar_step 15) (sort compare_bars fine) ([], None))).
  split; [now apply aggregate_Ok |]. split; [exact Hf |].
  split; [now apply resample_Ok |].
  rewrite (sort_sorted_id compare_bars fine)
    by now apply (instants_not_after _ zs).
  rewrite (aggregate_Ok _ _ _ P5) in Hf. injection Hf as <-.
  symmetry. apply view_flush.
  exact (loops_agree 5 3 ltac:(lia) ltac:(lia) (sort compare_ticks ticks)).
Qed.

Lemma float_neq a b : (a =? b)%float = false -> not_nan a -> a <> b.
Proof.
  intros H Hn E. subst. unfold not_nan, is_nan in Hn. rewrite H in Hn.
  discriminate.
Qed.

(** C6, as stated, fails on the volume: three ticks of volumes 0.1, 0.2 and
    0.3, the first in one 5-minute bucket and the other two in the next.
    Aggregated to 15 minutes the volume is (0.1 + 0.2) + 0.3; resampled from
    the 5-minute bars it is 0.1 + (0.2 + 0.3). *)
Lemma resample_volume_differs :
  let ticks :=
    [ Tick.mk 0 1 1 (Some 0.1%float) (Some 0.1%float);
      Tick.mk 300000 1 1 (Some 0.2%float) (Some 0.2%float);
      Tick.mk 360000 1 1 (Some 0.3%float) (Some 0.3%float) ] in
  exists direct fine coarse,
    snd (aggregateTicksToBars ticks "15m") = Ok direct
    /\ snd (aggregateTicksToBars ticks "5m") = Ok fine
    /\ snd (resampleBars fine "15m") = Ok coarse
    /\ map Bar.volume direct = [0.6000000000000001%float]
    /\ map Bar.volume coarse = [0.6%float]
    /\ map Bar.volume coarse <> map Bar.volume direct.
Proof.
  cbv zeta.
  eexists _, _, _. split; [vm_compute; reflexivity |].
  split; [vm_compute; reflexivity |].
  split; [vm_compute; reflexivity |].
  split; [vm_compute; reflexivity |].
  split; [vm_compute; reflexivity |].
  vm_compute. intros H. apply (f_equal (hd 0%float)) in H. cbn [hd] in H.
  revert H. apply float_neq; reflexivity.
Qed.


(* ================================================================== *)
(** * The spread of a bar                                              *)
(* ================================================================== *)

(** The open bar of a tick loop always has a spread. *)
Lemma add_volume_spread cb tick :
  Bar.spread (add_volume cb tick) = Bar.spread cb.
Proof. unfold add_volume. now destruct (_ && _). Qed.

Lemma add_volume_tickCount cb tick :
  Bar.tickCount (add_volume cb tick) = Bar.tickCount cb.
Proof. unfold add_volume. now destruct (_ && _). Qed.

Lemma tick_step_open intervalMinutes st tick :
  exists cb, snd (tick_step intervalMinutes st tick) = Some cb
             /\ exists s, Bar.spread cb = Some s.
Proof.
  destruct st as [bars [cb |]]; cbn [tick_step];
    [destruct (strict_neq _ _) |]; cbn [snd]; eexists; (split; [reflexivity |]);
    rewrite add_volume_spread; cbn; eexists; reflexivity.
Qed.

Lemma tick_loop_open_spread intervalMinutes processed cb :
  snd (fold_left (tick_step intervalMinutes) processed ([], None)) = Some cb ->
  exists s, Bar.spread cb = Some s.
Proof.
  destruct processed as [| tick processed] using rev_ind; [discriminate |].
  rewrite fold_left_app. cbn [fold_left]. intros H.
  destruct (tick_step_open intervalMinutes
              (fold_left (tick_step intervalMinutes) processed ([], None)) tick)
    as (cb' & H1 & H2).
  rewrite H1 in H. now injection H as <-.
Qed.

(** C2.  After any ticks already processed, the iteration on the next tick
    leaves an open bar whose spread is [ask - bid] of the tick, with a tick
    count of one, when the tick opens the bar (no bar was open, or the open
    bar was of another bucket); when the tick is of the bucket of the open
    bar, the tick count is the former one plus one, and the spread is
    [(spread_old * (n - 1) + (ask - bid)) / n] for that new tick count
    [n]. *)
Theorem spread_running_mean
  (intervalMinutes : Z) (processed : list Tick.t) (tick : Tick.t) :
  let before_tick :=
    fold_left (tick_step intervalMinutes) processed ([], None) in
  let after_tick := tick_step intervalMinutes before_tick tick in
  exists currentBar,
    snd after_tick = Some currentBar
    /\ (snd before_tick = None ->
        Bar.spread currentBar = Some (tick_spread tick)
        /\ Bar.tickCount currentBar = 1%float)
    /\ (forall previous,
          snd before_tick = Some previous ->
          strict_neq (getTime (Bar.timestamp previous))
                     (getTime (bucket_of intervalMinutes tick)) = true ->
          Bar.spread currentBar = Some (tick_spread tick)
          /\ Bar.tickCount currentBar = 1%float)
    /\ (forall previous,
          snd before_tick = Some previous ->
          strict_neq (getTime (Bar.timestamp previous))
                     (getTime (bucket_of intervalMinutes tick)) = false ->
          exists spread_old,
            Bar.spread previous = Some spread_old
            /\ Bar.tickCount currentBar
               = (Bar.tickCount previous + 1)%float
            /\ Bar.spread currentBar
               = Some (running_mean spread_old (Bar.tickCount currentBar)
                         (tick_spread tick))).
Proof.
  intros before_tick after_tick.
  pose proof (tick_loop_open_spread intervalMinutes processed) as Hs.
  fold before_tick in Hs. unfold after_tick. clearbody before_tick.
  unfold bucket_of.
  destruct before_tick as [bars [cb |]]; cbn [tick_step snd] in *.
  - destruct (Hs cb eq_refl) as [s E].
    destruct (strict_neq _ _) eqn:Hn; cbn [snd]; eexists;
      (split; [reflexivity |]); rewrite add_volume_spread, add_volume_tickCount;
      (split; [discriminate |]); split; intros previous [= <-] Hn';
      try congruence.
    + now split.
    + exists s. split; [exact E |]. split; [reflexivity |].
      cbn. now rewrite E.
  - eexists. split; [reflexivity |].
    rewrite add_volume_spread, add_volume_tickCount.
    split; [now split |]. split; intros previous [=].
Qed.

(* ================================================================== *)
(** * The higher moments, and the volume of a bar                      *)
(* ================================================================== *)



(** C7, on the code.  A tick adds [(bidVolume + askVolume) / 2] to the volume
    of the open bar when both volumes are truthy, and leaves the bar as it is
    when a volume is absent; it also leaves the bar as it is when a volume is
    present and falsy (zero or NaN).  So a tick with a bid volume of 0 and an
    ask volume of 5 adds nothing, where it carries both fields and their
    mean is 2.5. *)
Theorem volume_added_when_truthy (currentBar : Bar.t) (tick : Tick.t) :
  (forall bv av,
     Tick.bidVolume tick = Some bv -> Tick.askVolume tick = Some av ->
     truthy bv = true -> truthy av = true ->
     Bar.volume (add_volume currentBar tick)
     = (Bar.volume currentBar + mean_volume bv av)%float)
  /\ (Tick.bidVolume tick = None \/ Tick.askVolume tick = None ->
      add_volume currentBar tick = currentBar)
  /\ (forall bv av,
     Tick.bidVolume tick = Some bv -> Tick.askVolume tick = Some av ->
     truthy bv = false \/ truthy av = false ->
     add_volume currentBar tick = currentBar)
  /\ (let zero_bid := Tick.mk 0 1 1 (Some 0%float) (Some 5%float) in
      mean_volume 0 5 = 2.5%float
      /\ exists bars,
           snd (aggregateTicksToBars [zero_bid] "1m") = Ok bars
           /\ map Bar.volume bars = [0%float]).
Proof.
  unfold add_volume, mean_volume. split; [| split; [| split]].
  - intros bv av -> -> Hb Ha. cbn. now rewrite Hb, Ha.
  - intros [-> | ->]; cbn; [reflexivity | now rewrite andb_false_r].
  - intros bv av -> -> [H | H]; cbn; rewrite H;
      [reflexivity | now rewrite andb_false_r].
  - cbv zeta. split; [reflexivity |]. eexists. split; reflexivity.
Qed.


(* ================================================================== *)
(** * Buckets, errors and repeated calls                                 *)
(* ================================================================== *)



(** X2.  When the coarse interval is a multiple of the fine one (neither is
    zero), the coarse bucket start of the fine bucket start of an instant is
    the coarse bucket start of the instant. *)
Theorem bucket_of_finer_bucket
  (fine_tf coarse_tf : string) (fine k t : Z) :
  parseTimeframe fine_tf = Ok fine ->
  parseTimeframe coarse_tf = Ok (k * fine) ->
  fine <> 0 -> k <> 0 ->
  getBarTime (getBarTime (Instant t) fine) (k * fine)
  = getBarTime (Instant t) (k * fine).
Proof.
  intros Hf Hc Hf0 Hk0.
  apply parseTimeframe_nonneg in Hf. apply parseTimeframe_nonneg in Hc.
  apply getBarTime_coarser; nia.
Qed.

(** Five-minute buckets inside one-hour buckets. *)
Lemma bucket_of_finer_bucket_witness :
  getBarTime (getBarTime (Instant 1234567890) 5) (12 * 5)
  = getBarTime (Instant 1234567890) (12 * 5).
Proof.
  apply (bucket_of_finer_bucket "5m" "1h" 5 12 1234567890);
    [reflexivity | reflexivity | lia | lia].
Defined.

(** X3.  On a non-empty input, a token [parseTimeframe] rejects makes both
    functions throw the error of [parseTimeframe], [Invalid timeframe:
    <token>]; [aggregateTicksToBars] then leaves the caller's array as it
    was, and [resampleBars] has already sorted it. *)
Theorem rejected_timeframe_propagates
  (ticks : list Tick.t) (bars : list Bar.t) (token message : string) :
  parseTimeframe token = Throw message ->
  ticks <> [] -> bars <> [] ->
  aggregateTicksToBars ticks token = (ticks, Throw message)
  /\ resampleBars bars token = (sort compare_bars bars, Throw message)
  /\ message = ("Invalid timeframe: " ++ token)%string.
Proof.
  intros Hp Ht Hb. unfold aggregateTicksToBars, resampleBars.
  destruct ticks as [| t ticks]; [contradiction |].
  destruct bars as [| b bars]; [contradiction |].
  rewrite Hp. repeat split.
  unfold parseTimeframe in Hp.
  destruct (match_timeframe token) as [[digits unit] |] eqn:Hm.
  - apply match_timeframe_Some in Hm as (_ & _ & _ & Hu).
    apply is_unit_cases in Hu. destruct Hu as [-> | [-> | ->]]; discriminate.
  - now injection Hp.
Qed.

(** The token [m5] (unit first) on two records in descending order. *)
Lemma rejected_timeframe_propagates_witness :
  let ticks := [ Tick.mk 60000 1 1 None None; Tick.mk 0 2 2 None None ] in
  let bars :=
    [ Bar.mk (Instant 60000) 1 1 1 1 0 1 None;
      Bar.mk (Instant 0) 2 2 2 2 0 1 None ] in
  aggregateTicksToBars ticks "m5" = (ticks, Throw "Invalid timeframe: m5")
  /\ resampleBars bars "m5"
     = (sort compare_bars bars, Throw "Invalid timeframe: m5")
  /\ "Invalid timeframe: m5"%string = ("Invalid timeframe: " ++ "m5")%string.
Proof.
  apply (rejected_timeframe_propagates _ _ "m5" "Invalid timeframe: m5");
    [reflexivity | discriminate | discriminate].
Defined.

Lemma sort_ticks_idem ticks :
  sort compare_ticks (sort compare_ticks ticks) = sort compare_ticks ticks.
Proof.
  apply sort_sorted_id.
  apply (key_sorted_not_after compare_ticks Tick.timestamp).
  - intros; apply compare_ticks_key.
  - apply sort_sorted. intros; apply compare_ticks_key.
Qed.

Lemma aggregate_of_sorted ticks timeframe :
  aggregateTicksToBars (sort compare_ticks ticks) timeframe
  = (sort compare_ticks ticks, snd (aggregateTicksToBars ticks timeframe)).
Proof.
  unfold aggregateTicksToBars. destruct ticks as [| t ticks]; [reflexivity |].
  destruct (sort compare_ticks (t :: ticks)) as [| s l] eqn:E.
  { apply (f_equal (@List.length _)) in E.
    rewrite <- (Permutation_length (sort_perm compare_ticks (t :: ticks))) in E.
    discriminate. }
  destruct (parseTimeframe timeframe); [| reflexivity].
  rewrite <- E, sort_ticks_idem. reflexivity.
Qed.

(** X4.  A second call of [aggregateTicksToBars] on the array a first call
    has sorted in place returns the bars it returns on the original array,
    for any two timeframe tokens; and once a call has sorted the array, a
    further call leaves it as it is. *)
Theorem second_call_sees_sorted_array
  (ticks : list Tick.t) (first_tf second_tf : string) :
  let array_after_first := fst (aggregateTicksToBars ticks first_tf) in
  snd (aggregateTicksToBars array_after_first second_tf)
  = snd (aggregateTicksToBars ticks second_tf)
  /\ (forall intervalMinutes,
        parseTimeframe first_tf = Ok intervalMinutes ->
        fst (aggregateTicksToBars array_after_first second_tf)
        = array_after_first).
Proof.
  intros array_after_first.
  assert (H : array_after_first = sort compare_ticks ticks
              \/ array_after_first = ticks).
  { unfold array_after_first, aggregateTicksToBars.
    destruct ticks; [now right |].
    destruct (parseTimeframe first_tf); [left | right]; reflexivity. }
  split.
  - destruct H as [-> | ->]; [| reflexivity].
    now rewrite aggregate_of_sorted.
  - intros intervalMinutes Hp.
    assert (E : array_after_first = sort compare_ticks ticks).
    { unfold array_after_first, aggregateTicksToBars.
      destruct ticks; [reflexivity |]. now rewrite Hp. }
    rewrite E, aggregate_of_sorted. reflexivity.
Qed.

(* ================================================================== *)
(** * Bar counts, and resampling in general                              *)
(* ================================================================== *)

(** With an interval of zero every tick opens a bar. *)
Lemma zero_interval_loop ticks : forall bars cb,
  flush (fold_left (tick_step 0) ticks (bars, Some cb))
  = bars ++ cb :: map (fun t => add_volume (new_bar Invalid t) t) ticks.
Proof.
  induction ticks as [| t ticks IH]; intros bars cb; [reflexivity |].
  cbn [fold_left tick_step map]. rewrite getBarTime_zero.
  replace (strict_neq (getTime (Bar.timestamp cb)) (getTime Invalid))
    with true by (unfold strict_neq; now destruct (Bar.timestamp cb)).
  rewrite IH, <- app_assoc. reflexivity.
Qed.

(** X5.  For a token that parses to zero minutes ([0m], [0h], [00d], ...)
    [aggregateTicksToBars] returns one bar for each tick, in ascending order
    of the ticks' timestamps: the bar that tick alone opens, with an Invalid
    Date as bucket start and a tick count of one. *)
Theorem zero_interval_one_bar_per_tick (ticks : list Tick.t) (tf : string) :
  parseTimeframe tf = Ok 0 ->
  exists bars,
    snd (aggregateTicksToBars ticks tf) = Ok bars
    /\ bars = map (fun t => add_volume (new_bar Invalid t) t)
                  (sort compare_ticks ticks)
    /\ List.length bars = List.length ticks
    /\ Forall (fun b => Bar.timestamp b = Invalid
                        /\ Bar.tickCount b = 1%float) bars.
Proof.
  intros Hp. rewrite (aggregate_Ok _ _ _ Hp).
  eexists. split; [reflexivity |].
  assert (E : flush (fold_left (tick_step 0) (sort compare_ticks ticks)
                       ([], None))
              = map (fun t => add_volume (new_bar Invalid t) t)
                    (sort compare_ticks ticks)).
  { destruct (sort compare_ticks ticks) as [| t l]; [reflexivity |].
    cbn [fold_left tick_step]. rewrite getBarTime_zero.
    now rewrite zero_interval_loop. }
  rewrite E. split; [reflexivity |]. split.
  - rewrite length_map. symmetry. apply Permutation_length, sort_perm.
  - apply Forall_map, Forall_forall. intros t _.
    rewrite add_volume_timestamp, add_volume_tickCount. now split.
Qed.

Lemma zero_interval_one_bar_per_tick_witness :
  let ticks := [ Tick.mk 60000 1 1 None None; Tick.mk 0 2 2 None None ] in
  exists bars,
    snd (aggregateTicksToBars ticks "0h") = Ok bars
    /\ bars = map (fun t => add_volume (new_bar Invalid t) t)
                  (sort compare_ticks ticks)
    /\ List.length bars = List.length ticks
    /\ Forall (fun b => Bar.timestamp b = Invalid
                        /\ Bar.tickCount b = 1%float) bars.
Proof. apply (zero_interval_one_bar_per_tick _ "0h"). reflexivity. Defined.

(** The number of bars. *)
Lemma tick_loop_length intervalMinutes ticks : forall st,
  (List.length (flush (fold_left (tick_step intervalMinutes) ticks st))
   <= List.length (flush st) + List.length ticks)%nat
  /\ (ticks <> [] ->
      flush (fold_left (tick_step intervalMinutes) ticks st) <> []).
Proof.
  induction ticks as [| t ticks IH]; intros st.
  - cbn. split; [lia | contradiction].
  - cbn [fold_left]. destruct (IH (tick_step intervalMinutes st t)) as [H1 H2].
    assert (Hs : (List.length (flush (tick_step intervalMinutes st t))
                  <= S (List.length (flush st)))%nat
                 /\ flush (tick_step intervalMinutes st t) <> []).
    { destruct st as [bars [cb |]]; cbn [tick_step];
        [destruct (strict_neq _ _) |]; unfold flush; cbn [fst snd];
        rewrite ?length_app; cbn [List.length]; split; try lia;
        intros E; apply (f_equal (@List.length _)) in E;
        rewrite ?length_app in E; cbn in E; lia. }
    destruct Hs as [Hs1 Hs2]. split.
    + cbn [List.length]. lia.
    + intros _. destruct ticks as [| t' ticks]; [exact Hs2 |].
      apply H2. discriminate.
Qed.

(** X6.  For every token that parses, [aggregateTicksToBars] returns at most
    as many bars as there are ticks, and no bar exactly when there is no
    tick. *)
Theorem bars_no_more_than_ticks
  (ticks : list Tick.t) (tf : string) (intervalMinutes : Z) :
  parseTimeframe tf = Ok intervalMinutes ->
  exists bars,
    snd (aggregateTicksToBars ticks tf) = Ok bars
    /\ (List.length bars <= List.length ticks)%nat
    /\ (bars = [] <-> ticks = []).
Proof.
  intros Hp. rewrite (aggregate_Ok _ _ _ Hp). eexists. split; [reflexivity |].
  pose proof (Permutation_length (sort_perm compare_ticks ticks)) as Hl.
  destruct (tick_loop_length intervalMinutes (sort compare_ticks ticks)
              ([], None)) as [H1 H2].
  split; [cbn in H1; lia |]. split.
  - intros E. destruct ticks as [| t ticks]; [reflexivity |].
    exfalso. apply H2; [| exact E]. intros E'. rewrite E' in Hl. discriminate.
  - intros ->. reflexivity.
Qed.

Lemma bars_no_more_than_ticks_witness :
  let ticks :=
    [ Tick.mk 90000 1.11 1.12 None None; Tick.mk 0 1.10 1.11 None None;
      Tick.mk 30000 1.12 1.13 None None ] in
  exists bars,
    snd (aggregateTicksToBars ticks "1m") = Ok bars
    /\ (List.length bars <= List.length ticks)%nat
    /\ (bars = [] <-> ticks = []).
Proof. apply (bars_no_more_than_ticks _ "1m" 1). reflexivity. Defined.






(* ================================================================== *)
(** * The bar of each bucket                                             *)
(* ================================================================== *)

Section GroupBarFacts.
Context {A : Type} (key : A -> Date) (opens : Date -> A -> Bar.t)
        (merges : Bar.t -> A -> Bar.t) (keyz : A -> Z).
Hypothesis key_instant : forall x, key x = Instant (keyz x).
Hypothesis opens_timestamp : forall d x, Bar.timestamp (opens d x) = d.
Hypothesis merges_timestamp :
  forall cb x, Bar.timestamp (merges cb x) = Bar.timestamp cb.

Let step := group_step key opens merges.












End GroupBarFacts.








Lemma last_default {A} (l : list A) : forall a d d',
  last (a :: l) d = last (a :: l) d'.
Proof.
  induction l as [| x l IH]; intros a d d'; [reflexivity |].
  change (last (x :: l) d = last (x :: l) d'). apply IH.
Qed.

Lemma last_cons {A} (r : A) rest d : last (r :: rest) d = last rest r.
Proof.
  destruct rest as [| x rest]; [reflexivity |].
  change (last (x :: rest) d = last (x :: rest) r). apply last_default.
Qed.








(* ================================================================== *)
(** * The statistics report                                              *)
(* ================================================================== *)






(** The report on a non-empty sequence. *)
Lemma statistics_of_ticks first rest :
  let ticks := first :: rest in
  let returns := returns_of (map midPrice ticks) in
  exists skew kurtosis,
    calculateSkewness returns = Ok skew
    /\ calculateKurtosis returns = Ok kurtosis
    /\ calculateTickStatistics ticks
       = Ok (Some (mkStatistics
           (List.length ticks)
           (Instant (Tick.timestamp first))
           (Instant (Tick.timestamp (last rest first)))
           (summary_of (map (fun t => (Tick.ask t - Tick.bid t)%float) ticks))
           (summary_of (map midPrice ticks))
           (mkMoments (Js.sum returns / of_nat (List.length returns))%float
                      (calculateStdDev returns) skew kurtosis))).
Proof.
  cbn zeta. eexists _, _. split; [reflexivity |]. split; [reflexivity |].
  unfold calculateTickStatistics, calculateSkewness, calculateKurtosis, bind.
  cbn [newDate]. now rewrite last_cons.
Qed.












(* ================================================================== *)
(** * Ticks from the fetcher                                             *)
(* ================================================================== *)

Section SortMap.
Context {A : Type} (compare : A -> A -> num) (f : A -> A).
Hypothesis compare_f : forall a b, compare (f a) (f b) = compare a b.

Lemma insert_map x l :
  insert compare (f x) (map f l) = map f (insert compare x l).
Proof.
  induction l as [| y l IH]; cbn [insert map]; [reflexivity |].
  rewrite compare_f. destruct (Js.lt (Fin 0) (compare x y)); cbn [map];
    [now rewrite IH | reflexivity].
Qed.

Lemma sort_map l : sort compare (map f l) = map f (sort compare l).
Proof.
  induction l as [| x l IH]; cbn [sort map]; [reflexivity |].
  now rewrite IH, insert_map.
Qed.
End SortMap.

Lemma or_null_truthy x : truthy_field (or_null x) = truthy_field x.
Proof. unfold or_null. now destruct (truthy_field x) eqn:E. Qed.

Lemma or_null_idem x : or_null (or_null x) = or_null x.
Proof. unfold or_null. now destruct (truthy_field x) eqn:E; rewrite ?E. Qed.

Lemma add_volume_processed cb tick :
  add_volume cb (processTick tick) = add_volume cb tick.
Proof.
  unfold add_volume, processTick. cbn [Tick.bidVolume Tick.askVolume].
  rewrite !or_null_truthy. unfold or_null.
  destruct (truthy_field (Tick.bidVolume tick)); [| reflexivity].
  destruct (truthy_field (Tick.askVolume tick)); reflexivity.
Qed.

Lemma tick_step_processed intervalMinutes st tick :
  tick_step intervalMinutes st (processTick tick)
  = tick_step intervalMinutes st tick.
Proof.
  destruct st as [bars [cb |]]; cbn [tick_step].
  - rewrite !add_volume_processed. reflexivity.
  - rewrite add_volume_processed. reflexivity.
Qed.

Lemma fold_tick_step_processed intervalMinutes l : forall st,
  fold_left (tick_step intervalMinutes) (map processTick l) st
  = fold_left (tick_step intervalMinutes) l st.
Proof.
  induction l as [| t l IH]; intros st; cbn [map fold_left]; [reflexivity |].
  now rewrite tick_step_processed, IH.
Qed.

Lemma last_map_default {A B} (f : A -> B) l d :
  last (map f l) (f d) = f (last l d).
Proof.
  induction l as [| x l IH]; [reflexivity |].
  destruct l as [| y l]; [reflexivity |].
  change (last (map f (y :: l)) (f d) = f (last (y :: l) d)). exact IH.
Qed.

(** X15.  Ticks that went through [processTickData] give the bars and the
    statistics the raw ticks give, for every timeframe token, and the
    caller's array after the call is the processed form of what it is for
    the raw ticks; processing twice is processing once. *)
Theorem processing_keeps_the_bars (data : list Tick.t) (tf : string) :
  aggregateTicksToBars (processTickData_tick data) tf
  = (processTickData_tick (fst (aggregateTicksToBars data tf)),
     snd (aggregateTicksToBars data tf))
  /\ calculateTickStatistics (processTickData_tick data)
     = calculateTickStatistics data
  /\ processTickData_tick (processTickData_tick data)
     = processTickData_tick data.
Proof.
  unfold processTickData_tick. split; [| split].
  - unfold aggregateTicksToBars. destruct data as [| t data]; [reflexivity |].
    cbn [map]. destruct (parseTimeframe tf); [| reflexivity].
    change (processTick t :: map processTick data)
      with (map processTick (t :: data)).
    rewrite (sort_map compare_ticks processTick) by reflexivity.
    cbn [fst snd]. now rewrite fold_tick_step_processed.
  - destruct data as [| t data]; [reflexivity |]. cbn [map].
    destruct (statistics_of_ticks (processTick t) (map processTick data))
      as (sk & ku & Hsk & Hku & ->).
    destruct (statistics_of_ticks t data) as (sk' & ku' & Hsk' & Hku' & ->).
    assert (Em : map midPrice (processTick t :: map processTick data)
                 = map midPrice (t :: data)).
    { cbn [map]. now rewrite map_map. }
    assert (Es : map (fun x => (Tick.ask x - Tick.bid x)%float)
                   (processTick t :: map processTick data)
                 = map (fun x => (Tick.ask x - Tick.bid x)%float) (t :: data)).
    { cbn [map]. now rewrite map_map. }
    rewrite Em in *. rewrite Es. rewrite Hsk' in Hsk. rewrite Hku' in Hku.
    injection Hsk as <-. injection Hku as <-.
    rewrite last_map_default. cbn [List.length]. now rewrite length_map.
  - rewrite map_map. apply map_ext. intros t. unfold processTick. cbn.
    now rewrite !or_null_idem.
Qed.

(* ================================================================== *)
(** * The standard deviation, and the resampled bar of each bucket       *)
(* ================================================================== *)

(** The sign of a square root. *)
Lemma is_nan_of_Prim2SF a : Prim2SF a = S754_nan -> is_nan a = true.
Proof.
  intros E. unfold is_nan. rewrite eqb_spec, E. reflexivity.
Qed.

Lemma binary_round_aux_sign mx ex lx :
  binary_round_aux prec emax false mx ex lx = S754_nan
  \/ SFleb (S754_zero false) (binary_round_aux prec emax false mx ex lx)
     = true.
Proof.
  unfold binary_round_aux.
  destruct (shr_fexp prec emax mx ex lx) as [mrs' e'].
  destruct (shr_fexp prec emax _ e' loc_Exact) as [mrs'' e''].
  destruct (shr_m mrs'') as [| m | m]; [right | | left]; try reflexivity.
  destruct (e'' <=? emax - prec); right; reflexivity.
Qed.

Lemma sqrt_not_negative v :
  is_nan (sqrt v) = true \/ (0 <=? sqrt v)%float = true.
Proof.
  rewrite leb_spec.
  assert (H : Prim2SF (sqrt v) = S754_nan
              \/ SFleb (S754_zero false) (Prim2SF (sqrt v)) = true).
  { rewrite sqrt_spec. unfold SF64sqrt, SFsqrt.
    destruct (Prim2SF v) as [s | [] | | [] m e]; auto.
    destruct (SFsqrt_core_binary prec emax (Z.pos m) e) as [[mz ez] lz].
    apply binary_round_aux_sign. }
  destruct H as [H | H]; [left; now apply is_nan_of_Prim2SF | right; exact H].
Qed.

(** X16.  [calculateStdDev] never returns a negative number: its result is
    NaN or at least zero, and so is each standard deviation in the report of
    [calculateTickStatistics]. *)
Theorem stddev_not_negative (values : list float) (ticks : list Tick.t) :
  (is_nan (calculateStdDev values) = true
   \/ (0 <=? calculateStdDev values)%float = true)
  /\ (forall s,
        calculateTickStatistics ticks = Ok (Some s) ->
        (is_nan (s_std (st_spread s)) = true
         \/ (0 <=? s_std (st_spread s))%float = true)
        /\ (is_nan (s_std (st_price s)) = true
            \/ (0 <=? s_std (st_price s))%float = true)
        /\ (is_nan (r_std (st_returns s)) = true
            \/ (0 <=? r_std (st_returns s))%float = true)).
Proof.
  split; [apply sqrt_not_negative |].
  intros s Hs. destruct ticks as [| first rest]; [discriminate |].
  destruct (statistics_of_ticks first rest) as (sk & ku & _ & _ & E).
  rewrite E in Hs. injection Hs as <-.
  cbn [st_spread st_price st_returns s_std r_std summary_of].
  repeat split; apply sqrt_not_negative.
Qed.




